(** * The metadata-resolution service of yt-queue (services/apiService.ts)

    A shallow embedding of class [ApiService]: the two identifier
    extractors (regular expressions run by a small backtracking matcher),
    the backoff retrier, the timeout-bounded fetcher, the playlist and video
    lookups, the local fallback and the health probe, followed by the
    properties the specification states about them.

    Conventions of the embedding.
    - A JavaScript string is the list of its UTF-16 code units, so [length]
      is the [.length] of the source.
    - A call that may throw (or an async call that may reject) returns a
      [Result]; code that awaits the network or a timer threads a world.
    - The network is an oracle of the host: what [fetch] settles to may
      depend on everything that happened before.  A timeout abort is one of
      the rejections the oracle can answer.
    - The numbers of the retry policy are integers, as the constants of
      the source are; the arithmetic of the delays is then exact.
    - [console.log] and [console.warn] are not modelled. *)

From Stdlib Require Import List ZArith NArith Lia Bool String Ascii Arith.
From Stdlib Require Import DecimalString Sorted.
From Equations Require Import Equations.
Import ListNotations.

Set Implicit Arguments.
Set Warnings "-register-all".

(* ===================================================================== *)
(** ** Strings *)
(* ===================================================================== *)

Definition cu : Type := N.
Definition jsstring : Type := list cu.

(** An ASCII literal of the source as a string of code units. *)
Definition lit (s : string) : jsstring :=
  map N_of_ascii (list_ascii_of_string s).

Definition ofNat (n : nat) : jsstring :=
  lit (NilZero.string_of_uint (Nat.to_uint n)).

(* ===================================================================== *)
(** ** Regular expressions: a backtracking matcher *)
(* ===================================================================== *)

(** The character classes the two patterns use.  Without the [s] flag a
    dot matches every code unit but the four line terminators; [\w] is
    ASCII only (no [i] or [u] flag). *)
Definition isLineTerminator (c : cu) : bool :=
  ((c =? 10) || (c =? 13) || (c =? 8232) || (c =? 8233))%N.

Definition dot (c : cu) : bool := negb (isLineTerminator c).

Definition wordChar (c : cu) : bool :=
  (((97 <=? c) && (c <=? 122)) || ((65 <=? c) && (c <=? 90)) ||
   ((48 <=? c) && (c <=? 57)) || (c =? 95))%N.

Definition oneOf (s : string) (c : cu) : bool := existsb (N.eqb c) (lit s).
Definition noneOf (s : string) (c : cu) : bool := negb (oneOf s c).

(** The fragment of the pattern language the source uses: [^], a character
    class, a literal, a greedy star over a class, sequence, ordered
    alternative and numbered capture group. *)
Inductive regex : Type :=
| Bol
| Chars (p : cu -> bool)
| Lit (s : jsstring)
| Star (p : cu -> bool)
| Cat (r1 r2 : regex)
| Alt (r1 r2 : regex)
| Group (i : nat) (r : regex).

(** The state of a match in progress: the index reached, the input left,
    the captures made so far (the latest first). *)
Record mstate : Type := MState {
  pos : nat;
  rest : jsstring;
  caps : list (nat * jsstring) }.

Definition cont : Type := mstate -> option mstate.

Fixpoint strip_prefix (p s : jsstring) : option jsstring :=
  match p, s with
  | [], _ => Some s
  | a :: p', b :: s' => if (a =? b)%N then strip_prefix p' s' else None
  | _ :: _, [] => None
  end.

(** Greedy repetition of a class: take one more code unit first, and fall
    back to the continuation at this index only when that fails. *)
Fixpoint star_greedy (p : cu -> bool) (n : nat) (s : jsstring)
    (cs : list (nat * jsstring)) (k : cont) : option mstate :=
  match s with
  | [] => k (MState n [] cs)
  | c :: s' =>
      if p c then
        match star_greedy p (S n) s' cs k with
        | Some r => Some r
        | None => k (MState n s cs)
        end
      else k (MState n s cs)
  end.

(** The matcher, in continuation-passing style as in the language
    definition: [k] is the rest of the pattern, and a failure of [k] makes
    the matcher try its next choice. *)
Fixpoint rmatch (r : regex) (st : mstate) (k : cont) : option mstate :=
  match r with
  | Bol => if Nat.eqb (pos st) 0 then k st else None
  | Chars p =>
      match rest st with
      | c :: s' => if p c then k (MState (S (pos st)) s' (caps st)) else None
      | [] => None
      end
  | Lit l =>
      match strip_prefix l (rest st) with
      | Some s' => k (MState (pos st + List.length l) s' (caps st))
      | None => None
      end
  | Star p => star_greedy p (pos st) (rest st) (caps st) k
  | Cat r1 r2 => rmatch r1 st (fun st' => rmatch r2 st' k)
  | Alt r1 r2 =>
      match rmatch r1 st k with
      | Some x => Some x
      | None => rmatch r2 st k
      end
  | Group i r1 =>
      rmatch r1 st (fun st' =>
        k (MState (pos st') (rest st')
             ((i, firstn (pos st' - pos st) (rest st)) :: caps st')))
  end.

(** [String.prototype.match] with a pattern without the [g] flag: the
    first start index, from 0 upwards, at which the pattern matches. *)
Fixpoint exec_from (r : regex) (n : nat) (s : jsstring) : option mstate :=
  match rmatch r (MState n s []) Some with
  | Some m => Some m
  | None =>
      match s with
      | [] => None
      | _ :: s' => exec_from r (S n) s'
      end
  end.

Definition exec (r : regex) (s : jsstring) : option mstate := exec_from r 0 s.

(** [match[i]]: [None] is [undefined] (the group took no part). *)
Fixpoint group (i : nat) (cs : list (nat * jsstring)) : option jsstring :=
  match cs with
  | [] => None
  | (j, g) :: cs' => if Nat.eqb i j then Some g else group i cs'
  end.

(* ===================================================================== *)
(** ** Values, exceptions, results *)
(* ===================================================================== *)

(** What [response.json()] can produce, and [undefined].  Numbers are
    observed only through truthiness and [=== 0]. *)
Inductive value : Type :=
| VUndefined
| VNull
| VBool (b : bool)
| VNum (z : Z)
| VStr (s : jsstring)
| VArr (items : list value)
| VObj (fields : list (jsstring * value)).

(** What can be thrown.  An [Error] built by the source carries the datum
    interpolated into its message. *)
Inductive exn : Type :=
| TypeError
| URIError
| FetchRejected (reason : N)
| JsonRejected
| PlaylistNotOk (status : Z)
| PlaylistInvalid
| OEmbedNotOk (status : Z)
| OEmbedError (err : value).

Inductive Result (A : Type) : Type :=
| Ok (a : A)
| Throw (e : exn).
Arguments Ok {A} a.
Arguments Throw {A} e.

Definition rbind {A B} (r : Result A) (f : A -> Result B) : Result B :=
  match r with
  | Ok a => f a
  | Throw e => Throw e
  end.

Definition try_catch {A} (body : Result A) (handler : exn -> Result A)
  : Result A :=
  match body with
  | Ok a => Ok a
  | Throw e => handler e
  end.

Definition truthy (v : value) : bool :=
  match v with
  | VUndefined | VNull => false
  | VBool b => b
  | VNum z => negb (z =? 0)%Z
  | VStr s => match s with [] => false | _ :: _ => true end
  | VArr _ | VObj _ => true
  end.

(** Truthiness of a [string | null]. *)
Definition truthyId (o : option jsstring) : bool :=
  match o with
  | Some (_ :: _) => true
  | _ => false
  end.

Fixpoint jsstring_eqb (a b : jsstring) : bool :=
  match a, b with
  | [], [] => true
  | x :: a', y :: b' => (x =? y)%N && jsstring_eqb a' b'
  | _, _ => false
  end.

(** The own properties of an object, each key once; a key that is not
    there reads as [undefined]. *)
Fixpoint lookup (key : jsstring) (fields : list (jsstring * value)) : value :=
  match fields with
  | [] => VUndefined
  | (k, v) :: fields' => if jsstring_eqb key k then v else lookup key fields'
  end.

(** [v.key] for the keys the source reads ([error], [title], [items],
    [length], ...): none of them is inherited from a prototype other
    than [length]. *)
Definition getProp (v : value) (key : string) : Result value :=
  match v with
  | VUndefined | VNull => Throw TypeError
  | VObj fields => Ok (lookup (lit key) fields)
  | VArr items =>
      if String.eqb key "length" then Ok (VNum (Z.of_nat (List.length items)))
      else Ok VUndefined
  | VStr s =>
      if String.eqb key "length" then Ok (VNum (Z.of_nat (List.length s)))
      else Ok VUndefined
  | VBool _ | VNum _ => Ok VUndefined
  end.

(** [v[i]] for a number [i]. *)
Definition getIndex (v : value) (i : nat) : Result value :=
  match v with
  | VUndefined | VNull => Throw TypeError
  | VObj fields => Ok (lookup (ofNat i) fields)
  | VArr items => Ok (nth i items VUndefined)
  | VStr s =>
      match nth_error s i with
      | Some c => Ok (VStr [c])
      | None => Ok VUndefined
      end
  | VBool _ | VNum _ => Ok VUndefined
  end.

(** [a || b] on values. *)
Definition orElse (a b : value) : value := if truthy a then a else b.

(* ===================================================================== *)
(** ** The URL identifier extractors *)
(* ===================================================================== *)

(** The pattern of [getYouTubeID], piece by piece (spaces added):
    [^  .*  ( youtu.be\/ | v\/ | u\/\w\/ | embed\/ | watch\?v= | &v= )
    ( [^#&?]* )  .*]. *)
Definition videoMarkers : regex :=
  Alt (Cat (Lit (lit "youtu")) (Cat (Chars dot) (Lit (lit "be/"))))
 (Alt (Lit (lit "v/"))
 (Alt (Cat (Lit (lit "u/")) (Cat (Chars wordChar) (Lit (lit "/"))))
 (Alt (Lit (lit "embed/"))
 (Alt (Lit (lit "watch?v="))
      (Lit (lit "&v=")))))).

Definition videoRegExp : regex :=
  Cat Bol
 (Cat (Star dot)
 (Cat (Group 1 videoMarkers)
 (Cat (Group 2 (Star (noneOf "#&?")))
      (Star dot)))).

(** The pattern of [getYouTubePlaylistID]: [[?&] list= ( [^#&?]+ )]. *)
Definition playlistRegExp : regex :=
  Cat (Chars (oneOf "?&"))
 (Cat (Lit (lit "list="))
      (Group 1 (Cat (Chars (noneOf "#&?")) (Star (noneOf "#&?"))))).

(** [match[2].length] throws a [TypeError] when [match[2]] is undefined. *)
Definition getYouTubeID (url : jsstring) : Result (option jsstring) :=
  match exec videoRegExp url with
  | Some m =>
      match group 2 (caps m) with
      | Some g => if Nat.eqb (List.length g) 11 then Ok (Some g) else Ok None
      | None => Throw TypeError
      end
  | None => Ok None
  end.

Definition getYouTubePlaylistID (url : jsstring) : Result (option jsstring) :=
  match exec playlistRegExp url with
  | Some m => Ok (group 1 (caps m))
  | None => Ok None
  end.

(** An id spliced into a template literal. *)
Definition idText (o : option jsstring) : jsstring :=
  match o with
  | Some i => i
  | None => lit "null"
  end.

Definition extractTitleFromUrl (url : jsstring) : Result jsstring :=
  rbind (getYouTubeID url) (fun videoId =>
  if truthyId videoId then
    Ok (lit "YouTube Video (" ++ idText videoId ++ lit ")")
  else
    rbind (getYouTubePlaylistID url) (fun playlistId =>
    if truthyId playlistId then
      Ok (lit "YouTube Playlist (" ++ idText playlistId ++ lit ")")
    else Ok (lit "YouTube Content"))).

(* ===================================================================== *)
(** ** Effects: a world threaded through awaits *)
(* ===================================================================== *)

(** An async computation over a world [W]: it settles to a value or to a
    rejection, and leaves the world changed. *)
Definition M (W A : Type) : Type := W -> Result A * W.

Definition ret {W A} (a : A) : M W A := fun w => (Ok a, w).

Definition throw {W A} (e : exn) : M W A := fun w => (Throw e, w).

Definition bind {W A B} (m : M W A) (f : A -> M W B) : M W B :=
  fun w =>
    match m w with
    | (Ok a, w') => f a w'
    | (Throw e, w') => (Throw e, w')
    end.

Definition lift {W A} (r : Result A) : M W A := fun w => (r, w).

Definition tryM {W A} (body : M W A) (handler : exn -> M W A) : M W A :=
  fun w =>
    match body w with
    | (Ok a, w') => (Ok a, w')
    | (Throw e, w') => handler e w'
    end.

Notation "x <- m ;; k" := (bind m (fun x => k))
  (at level 61, m at next level, right associativity).

(** A world in which one can wait: [delay ms] is the private method
    [delay] of the class, a timer of [ms] milliseconds. *)
Class Timer (W : Type) : Type := delay : Z -> W -> W.

(* ===================================================================== *)
(** ** The backoff retrier *)
(* ===================================================================== *)

Record RetryConfig : Type := {
  maxRetries : nat;
  baseDelay : Z;
  maxDelay : Z;
  backoffFactor : Z }.

Definition retryConfig : RetryConfig :=
  {| maxRetries := 3; baseDelay := 1000; maxDelay := 10000;
     backoffFactor := 2 |}.

(** The delay computed in the catch block before retry [retryCount + 1]. *)
Definition backoffDelay (cfg : RetryConfig) (retryCount : nat) : Z :=
  Z.min (baseDelay cfg * backoffFactor cfg ^ Z.of_nat retryCount)
        (maxDelay cfg).

(** [retryWithBackoff(operation, retryCount = 0)]: the result of the
    operation if it succeeds; its failure once [retryCount >= maxRetries];
    otherwise a wait and one more turn.  The turns end because
    [maxRetries - retryCount] decreases. *)
Equations retryWithBackoff {W} {T : Timer W} {A} (cfg : RetryConfig)
    (operation : M W A) (retryCount : nat) (w : W) : Result A * W
    by wf (maxRetries cfg - retryCount) lt :=
  retryWithBackoff cfg operation retryCount w with operation w := {
    | (Ok a, w1) := (Ok a, w1);
    | (Throw error, w1) with le_lt_dec (maxRetries cfg) retryCount := {
        | left _ := (Throw error, w1);
        | right _ :=
            retryWithBackoff cfg operation (S retryCount)
              (delay (backoffDelay cfg retryCount) w1) } }.
Next Obligation. lia. Qed.

(* ===================================================================== *)
(** ** The network world *)
(* ===================================================================== *)

(** What the service does to the outside, in the order it does it: a
    request issued with its abort deadline, a timer waited for. *)
Inductive event : Type :=
| EvFetch (url : jsstring) (timeout : Z)
| EvDelay (ms : Z).

Definition World : Type := list event.

#[global] Instance World_Timer : Timer World :=
  fun ms w => w ++ [EvDelay ms].

(** The part of a [Response] the source reads: [ok], [status] and what
    [json()] settles to. *)
Record Response : Type := {
  ok : bool;
  status : Z;
  json : Result value }.

(** The host: the built-in [encodeURIComponent] (it throws a [URIError]
    on a lone surrogate) and the network behind [fetch].  The outcome of a
    request is any function of the history, of the address and of the
    deadline after which the abort signal fires; [Throw] is a rejected
    promise. *)
Record Host : Type := {
  encodeURIComponent : jsstring -> Result jsstring;
  fetch : World -> jsstring -> Z -> Result Response }.

(** [fetchWithTimeout(url, options, timeout)]: both paths clear the timer,
    the catch block rethrows what it caught.  Every call of the source
    passes empty [options]. *)
Definition fetchWithTimeout (h : Host) (url : jsstring) (timeout : Z)
  : M World Response :=
  fun w =>
    match fetch h w url timeout with
    | Ok response => (Ok response, w ++ [EvFetch url timeout])
    | Throw error => (Throw error, w ++ [EvFetch url timeout])
    end.

(* ===================================================================== *)
(** ** The resolver *)
(* ===================================================================== *)

Record VideoData : Type := {
  title : value;
  thumbnailUrl : value }.

Inductive Source : Type := primary | fallback.

(** [ApiResponse<{title, thumbnailUrl}>]; the [error] field holds the
    caught error, of which the source keeps the message. *)
Record ApiResponse : Type := {
  data : VideoData;
  success : bool;
  error : option exn;
  source : Source }.

Definition playlistEndpoint : jsstring :=
  lit "https://api.youtubemultidownloader.com/playlist?url=".

Definition noembedEndpoint : jsstring :=
  lit "https://noembed.com/embed?url=".

(** The canonical thumbnail address of a video id. *)
Definition thumbnailOf (videoId : jsstring) : jsstring :=
  lit "https://img.youtube.com/vi/" ++ videoId ++ lit "/mqdefault.jpg".

(** The closure [operation] of [fetchPlaylistData]. *)
Definition fetchPlaylistData_operation (h : Host) (url : jsstring)
  : M World ApiResponse :=
  encoded <- lift (encodeURIComponent h url) ;;
  response <- fetchWithTimeout h (playlistEndpoint ++ encoded) 10000 ;;
  if negb (ok response) then throw (PlaylistNotOk (status response))
  else
    body <- lift (json response) ;;
    err <- lift (getProp body "error") ;;
    if truthy err then throw PlaylistInvalid
    else
      info <- lift (getProp body "playlist_info") ;;
      if negb (truthy info) then throw PlaylistInvalid
      else
        items <- lift (getProp info "items") ;;
        len <- lift (getProp items "length") ;;
        match len with
        | VNum 0 => throw PlaylistInvalid
        | _ =>
            first <- lift (getIndex items 0) ;;
            firstVideoThumbnail <-
              lift (match first with
                    | VUndefined | VNull => Ok VUndefined
                    | _ => getProp first "thumbnail"
                    end) ;;
            playlistTitle <- lift (getProp info "title") ;;
            ret {| data :=
                     {| title :=
                          orElse playlistTitle (VStr (lit "YouTube Playlist"));
                        thumbnailUrl :=
                          orElse firstVideoThumbnail (VStr (lit "placeholder"))
                     |};
                   success := true;
                   error := None;
                   source := primary |}
        end.

Definition fetchPlaylistData (h : Host) (url : jsstring)
  : M World ApiResponse :=
  retryWithBackoff retryConfig (fetchPlaylistData_operation h url) 0.

(** The closure [operation] of [fetchVideoDataFromNoEmbed]. *)
Definition fetchVideoDataFromNoEmbed_operation (h : Host) (url : jsstring)
  : M World ApiResponse :=
  encoded <- lift (encodeURIComponent h url) ;;
  response <- fetchWithTimeout h (noembedEndpoint ++ encoded) 10000 ;;
  if negb (ok response) then throw (OEmbedNotOk (status response))
  else
    body <- lift (json response) ;;
    err <- lift (getProp body "error") ;;
    if truthy err then throw (OEmbedError err)
    else
      currentVideoId <- lift (getYouTubeID url) ;;
      thumbnail <-
        lift (if truthyId currentVideoId
              then Ok (VStr (thumbnailOf (idText currentVideoId)))
              else getProp body "thumbnail_url") ;;
      serverTitle <- lift (getProp body "title") ;;
      ret {| data :=
               {| title := orElse serverTitle (VStr (lit "Untitled"));
                  thumbnailUrl := thumbnail |};
             success := true;
             error := None;
             source := primary |}.

Definition fetchVideoDataFromNoEmbed (h : Host) (url : jsstring)
  : M World ApiResponse :=
  retryWithBackoff retryConfig (fetchVideoDataFromNoEmbed_operation h url) 0.

(** [fetchWithFallback]: an async method that awaits nothing. *)
Definition fetchWithFallback (url : jsstring) (videoId : option jsstring)
  : Result ApiResponse :=
  try_catch
    (let thumbnail :=
       if truthyId videoId then thumbnailOf (idText videoId)
       else lit "placeholder" in
     rbind (extractTitleFromUrl url) (fun t =>
     Ok {| data := {| title := VStr t; thumbnailUrl := VStr thumbnail |};
           success := true;
           error := None;
           source := fallback |}))
    (fun caught =>
     Ok {| data := {| title := VStr (lit "Untitled");
                      thumbnailUrl := VStr (lit "placeholder") |};
           success := false;
           error := Some caught;
           source := fallback |}).

(** The body of the [try] block of [fetchVideoData]. *)
Definition primaryLookup (h : Host) (url : jsstring)
    (videoId playlistId : option jsstring) : M World ApiResponse :=
  if truthyId playlistId && negb (truthyId videoId)
  then fetchPlaylistData h url
  else fetchVideoDataFromNoEmbed h url.

Definition fetchVideoData (h : Host) (url : jsstring)
  : M World ApiResponse :=
  videoId <- lift (getYouTubeID url) ;;
  playlistId <- lift (getYouTubePlaylistID url) ;;
  tryM (primaryLookup h url videoId playlistId)
       (fun _ => lift (fetchWithFallback url videoId)).

(* ===================================================================== *)
(** ** The health probe *)
(* ===================================================================== *)

Record Health : Type := {
  noembed : bool;
  youtubemultidownloader : bool }.

Definition noembedProbe : jsstring :=
  lit "https://noembed.com/embed?url=https://www.youtube.com/watch?v=dQw4w9WgXcQ".

Definition playlistProbe : jsstring :=
  lit "https://api.youtubemultidownloader.com/playlist?url=https://www.youtube.com/playlist?list=PLrAXtmRdnEQy6nuLMOV7V4r4s_nloyEfR".

(** [results[i].status === 'fulfilled'] *)
Definition fulfilled {A} (r : Result A) : bool :=
  match r with
  | Ok _ => true
  | Throw _ => false
  end.

(** [Promise.allSettled] over the two probes: both requests are issued, in
    this order, before either settles, and no rejection escapes. *)
Definition checkApiHealth (h : Host) : M World Health :=
  fun w =>
    let (r0, w0) := fetchWithTimeout h noembedProbe 5000 w in
    let (r1, w1) := fetchWithTimeout h playlistProbe 5000 w0 in
    (Ok {| noembed := fulfilled r0;
           youtubemultidownloader := fulfilled r1 |}, w1).

(* ===================================================================== *)
(** ** Observing a retried operation *)
(* ===================================================================== *)

(** A world with two counters beside it, as a test double keeps them: how
    often the operation was invoked, and the timers that were waited for. *)
Record Observed (W : Type) : Type := {
  inner : W;
  invocations : nat;
  delays : list Z }.

#[global] Instance Observed_Timer {W} {T : Timer W} : Timer (Observed W) :=
  fun ms o =>
    {| inner := delay ms (inner o);
       invocations := invocations o;
       delays := delays o ++ [ms] |}.

Definition observed {W A} (operation : M W A) : M (Observed W) A :=
  fun o =>
    match operation (inner o) with
    | (r, w') =>
        (r, {| inner := w';
               invocations := S (invocations o);
               delays := delays o |})
    end.

Definition observe {W} (w : W) : Observed W :=
  {| inner := w; invocations := 0; delays := [] |}.

(** An operation that fails whenever it is invoked. *)
Definition always_fails {W A} (operation : M W A) : Prop :=
  forall w, exists e w', operation w = (Throw e, w').

(* ===================================================================== *)
(** ** Vocabulary of the statements *)
(* ===================================================================== *)

Fixpoint take_while (p : cu -> bool) (s : jsstring) : jsstring :=
  match s with
  | [] => []
  | c :: s' => if p c then c :: take_while p s' else []
  end.

Fixpoint drop_while (p : cu -> bool) (s : jsstring) : jsstring :=
  match s with
  | [] => []
  | c :: s' => if p c then drop_while p s' else s
  end.

(** The texts that the first group of the video pattern accepts. *)
Inductive marker : jsstring -> Prop :=
| marker_short (c : cu) :
    dot c = true -> marker (lit "youtu" ++ [c] ++ lit "be/")
| marker_v : marker (lit "v/")
| marker_u (c : cu) :
    wordChar c = true -> marker (lit "u/" ++ [c] ++ lit "/")
| marker_embed : marker (lit "embed/")
| marker_watch : marker (lit "watch?v=")
| marker_amp : marker (lit "&v=").

Definition starts_with_marker (s : jsstring) : Prop :=
  exists m s', marker m /\ s = m ++ s'.

(** A candidate ends at the end of the input or before one of [#&?]. *)
Definition ends_candidate (post : jsstring) : Prop :=
  match post with
  | [] => True
  | c :: _ => oneOf "#&?" c = true
  end.

(** [url] shows the candidate [cand] right after a marker: the marker is
    on the first line of [url] and [cand] runs up to the next delimiter. *)
Definition shows_candidate (url pre m cand post : jsstring) : Prop :=
  url = pre ++ m ++ cand ++ post /\
  marker m /\
  Forall (fun c => noneOf "#&?" c = true) cand /\
  ends_candidate post.

(** No marker starts after index [n] on the first line of [url]. *)
Definition last_marker_at (url : jsstring) (n : nat) : Prop :=
  forall pre' suf,
    url = pre' ++ suf -> n < List.length pre' ->
    Forall (fun c => dot c = true) pre' -> ~ starts_with_marker suf.

(** A decision procedure for [last_marker_at] on a concrete url: does the
    first group match at some index after [n] that the leading star can
    reach?  [i] is the index of the head of [s]. *)
Definition marker_here (s : jsstring) : bool :=
  match rmatch videoMarkers (MState 0 s []) Some with
  | Some _ => true
  | None => false
  end.

Fixpoint marker_later (n i : nat) (s : jsstring) : bool :=
  ((n <? i) && marker_here s) ||
  match s with
  | [] => false
  | c :: s' => dot c && marker_later n (S i) s'
  end.

(** The events of a trace that are requests, and where they go. *)
Definition requests (w : World) : list jsstring :=
  flat_map (fun ev => match ev with EvFetch u _ => [u] | EvDelay _ => [] end) w.

Definition sent_to (endpoint : jsstring) (u : jsstring) : Prop :=
  exists q, u = endpoint ++ q.

(* ===================================================================== *)
(** ** Test doubles *)
(* ===================================================================== *)

(** A world that only counts: the calls an operation received and the
    milliseconds waited. *)
Record Mock : Type := {
  calls : nat;
  waited : Z }.

#[global] Instance Mock_Timer : Timer Mock :=
  fun ms m => {| calls := calls m; waited := waited m + ms |}.

(** An operation that rejects on every call, with the number of the call
    as reason. *)
Definition rejecting : M Mock unit :=
  fun m =>
    (Throw (FetchRejected (N.of_nat (calls m))),
     {| calls := S (calls m); waited := waited m |}).

(** An operation that rejects until its call number [n] and then
    resolves. *)
Definition flaky (n : nat) : M Mock nat :=
  fun m =>
    (if calls m <? n then Throw (FetchRejected (N.of_nat (calls m)))
     else Ok (calls m),
     {| calls := S (calls m); waited := waited m |}).

(** A host without network: every request is rejected. *)
Definition offline : Host :=
  {| encodeURIComponent := fun s => Ok s;
     fetch := fun _ _ _ => Throw (FetchRejected 0) |}.

(** A host whose every request is answered 200 with the given body. *)
Definition answering (body : value) : Host :=
  {| encodeURIComponent := fun s => Ok s;
     fetch := fun _ _ _ =>
       Ok {| ok := true; status := 200; json := Ok body |} |}.

(** A host whose every request is answered with the given status and an
    empty object. *)
Definition answeringStatus (st : Z) : Host :=
  {| encodeURIComponent := fun s => Ok s;
     fetch := fun _ _ _ =>
       Ok {| ok := (200 <=? st)%Z && (st <? 300)%Z; status := st;
             json := Ok (VObj []) |} |}.

(** A host that reaches only the addresses under [endpoint]; what it
    reaches answers with status [st] and an empty object. *)
Definition reaching (endpoint : jsstring) (st : Z) : Host :=
  {| encodeURIComponent := fun s => Ok s;
     fetch := fun _ url _ =>
       match strip_prefix endpoint url with
       | Some _ =>
           Ok {| ok := (200 <=? st)%Z && (st <? 300)%Z; status := st;
                 json := Ok (VObj []) |}
       | None => Throw (FetchRejected 0)
       end |}.

(** A host whose first [n] requests are rejected and whose later ones are
    answered 200 with the given body. *)
Definition recovering (n : nat) (body : value) : Host :=
  {| encodeURIComponent := fun s => Ok s;
     fetch := fun w _ _ =>
       if List.length (requests w) <? n then Throw (FetchRejected 0)
       else Ok {| ok := true; status := 200; json := Ok body |} |}.

(* ===================================================================== *)
(** ** Vocabulary of the further statements *)
(* ===================================================================== *)

(** The timers of a trace, in order. *)
Definition delays_of (w : World) : list Z :=
  flat_map (fun ev => match ev with EvDelay ms => [ms] | EvFetch _ _ => [] end)
    w.

(** [s] starts with a playlist parameter: one of [?&], the text [list=]
    and a value of at least one code unit that is none of [#&?]. *)
Definition playlist_here (s : jsstring) : Prop :=
  exists c d s',
    s = c :: lit "list=" ++ d :: s' /\
    oneOf "?&" c = true /\ noneOf "#&?" d = true.

(** A decision procedure for "the playlist pattern matches at none of the
    first [n] indices of [s]". *)
Definition playlist_here_b (s : jsstring) : bool :=
  match rmatch playlistRegExp (MState 0 s []) Some with
  | Some _ => true
  | None => false
  end.

Fixpoint playlist_before (n : nat) (s : jsstring) : bool :=
  match n with
  | 0 => false
  | S n' =>
      playlist_here_b s ||
      match s with
      | [] => false
      | _ :: s' => playlist_before n' s'
      end
  end.

(* ===================================================================== *)
(** ** The card of an item (components/VideoCard.tsx) *)
(* ===================================================================== *)

Module VideoCard.



End VideoCard.

(* ===================================================================== *)
(** ** The error hook (hooks/useErrorHandler.ts) *)
(* ===================================================================== *)

Module ErrorHandler.

Inductive ErrorType : Type := network | validation | api | unknown.

Record ErrorState : Type := {
  hasError : bool;
  message : jsstring;
  type : ErrorType }.

(** The state the hook starts with, and what [clearError] sets. *)
Definition clearError : ErrorState :=
  {| hasError := false; message := []; type := unknown |}.

(** [setError(message, type = 'unknown')] *)
Definition setError (message : jsstring) (type : option ErrorType)
  : ErrorState :=
  {| hasError := true;
     message := message;
     type := match type with Some t => t | None => unknown end |}.

(** [s.includes(sub)] *)
Fixpoint includes (s : jsstring) (sub : jsstring) : bool :=
  match strip_prefix sub s with
  | Some _ => true
  | None =>
      match s with
      | [] => false
      | _ :: s' => includes s' sub
      end
  end.

(** What an async function settles to: a value, or an [Error] of which
    the hook reads the [message]. *)
Inductive Settled (T : Type) : Type :=
| Resolved (v : T)
| Rejected (message : jsstring).
Arguments Resolved {T} v.
Arguments Rejected {T} message.

(** [handleAsyncError(asyncFn, errorMessage?)] over the world of the
    function and the state of the hook; [None] is the [null] returned. *)
Definition handleAsyncError {W T : Type} (asyncFn : W -> Settled T * W)
    (errorMessage : option jsstring) (st : W * ErrorState)
  : option T * (W * ErrorState) :=
  match asyncFn (fst st) with
  | (Resolved v, w') => (Some v, (w', snd st))
  | (Rejected m, w') =>
      let report :=
        if includes m (lit "network") || includes m (lit "fetch") then
          (lit "Network error. Please check your connection and try again.",
           network)
        else if includes m (lit "validation") || includes m (lit "Invalid")
        then (m, validation)
        else if includes m (lit "API") || includes m (lit "response") then
          (lit "Service temporarily unavailable. Please try again later.",
           api)
        else if truthyId errorMessage then (idText errorMessage, unknown)
        else (lit "An unexpected error occurred", unknown) in
      (None, (w', setError (fst report) (Some (snd report))))
  end.

End ErrorHandler.

(* ===================================================================== *)
(** ** The popup (App.tsx) *)
(* ===================================================================== *)

Module App.

(** The first pattern of [getYouTubeID]: the text [youtu.be/] and a
    group of one or more code units that are none of [#&?]. *)
Definition youtuBeRegExp : regex :=
  Cat (Lit (lit "youtu.be/"))
      (Group 1 (Cat (Chars (noneOf "#&?")) (Star (noneOf "#&?")))).

(** The second pattern: one of [youtube.com/watch?v=],
    [youtube.com/embed/], [youtube.com/v/], and the same group. *)
Definition youtubeRegExp : regex :=
  Cat (Alt (Lit (lit "youtube.com/watch?v="))
      (Alt (Lit (lit "youtube.com/embed/"))
           (Lit (lit "youtube.com/v/"))))
      (Group 1 (Cat (Chars (noneOf "#&?")) (Star (noneOf "#&?")))).

(** [m && m[g].length === 11 ? m[g] : (go on)]; reading [length] of an
    undefined group throws. *)
Definition gate (m : option mstate) (g : nat) : Result (option jsstring) :=
  match m with
  | Some x =>
      match group g (caps x) with
      | Some i => if Nat.eqb (List.length i) 11 then Ok (Some i) else Ok None
      | None => Throw TypeError
      end
  | None => Ok None
  end.

(** [getYouTubeID] of the popup: two patterns of its own, then the
    pattern that the service uses. *)
Definition getYouTubeID (url : jsstring) : Result (option jsstring) :=
  rbind (gate (exec youtuBeRegExp url) 1) (fun youtuBe =>
  match youtuBe with
  | Some i => Ok (Some i)
  | None =>
      rbind (gate (exec youtubeRegExp url) 1) (fun youtube =>
      match youtube with
      | Some i => Ok (Some i)
      | None => gate (exec videoRegExp url) 2
      end)
  end).

Definition getYouTubePlaylistID (url : jsstring) : Result (option jsstring) :=
  match exec playlistRegExp url with
  | Some m => Ok (group 1 (caps m))
  | None => Ok None
  end.

Inductive ItemType : Type := video | playlist.

(** [SavedItem].  [title] and [thumbnail] hold what the service
    returned. *)
Record SavedItem : Type := {
  id : Z;
  url : jsstring;
  title : value;
  thumbnail : value;
  dateAdded : Z;
  watched : bool;
  type : ItemType;
  order : Z;
  tags : list jsstring }.

(** An item as the storage may hold it: written by an older version,
    [order] and [tags] can be missing. *)
Record StoredItem : Type := {
  stored : SavedItem;
  storedOrder : option Z;
  storedTags : option (list jsstring) }.

Inductive SaveState : Type := Idle | Loading | Success.

Inductive NotificationType : Type := nSuccess | nError | nWarning | nInfo.

Record Notification : Type := {
  show : bool;
  ntype : NotificationType;
  nmessage : jsstring }.

(** The state of the component that the handlers read and set, and what
    they did outside: the network trace, the clock reads and the delays
    of the timeouts they scheduled. *)
Record Popup : Type := {
  items : list SavedItem;
  newUrl : jsstring;
  newTag : jsstring;
  selectedTag : jsstring;
  searchQuery : jsstring;
  saveState : SaveState;
  notification : Notification;
  selectedItems : list Z;
  errorState : ErrorHandler.ErrorState;
  net : World;
  clockReads : nat;
  timeouts : list Z }.

(** The browser: the host of the service, the clock behind [Date.now()]
    (what its n-th read answers) and the message an engine gives to the
    errors it throws itself. *)
Record Browser : Type := {
  host : Host;
  now : nat -> Z;
  messageOf : exn -> jsstring }.

Definition setItems (f : list SavedItem -> list SavedItem) (p : Popup)
  : Popup :=
  {| items := f (items p); newUrl := newUrl p; newTag := newTag p;
     selectedTag := selectedTag p; searchQuery := searchQuery p;
     saveState := saveState p; notification := notification p;
     selectedItems := selectedItems p; errorState := errorState p;
     net := net p; clockReads := clockReads p; timeouts := timeouts p |}.

Definition setSelectedItems (f : list Z -> list Z) (p : Popup) : Popup :=
  {| items := items p; newUrl := newUrl p; newTag := newTag p;
     selectedTag := selectedTag p; searchQuery := searchQuery p;
     saveState := saveState p; notification := notification p;
     selectedItems := f (selectedItems p); errorState := errorState p;
     net := net p; clockReads := clockReads p; timeouts := timeouts p |}.

Definition setSaveState (s : SaveState) (p : Popup) : Popup :=
  {| items := items p; newUrl := newUrl p; newTag := newTag p;
     selectedTag := selectedTag p; searchQuery := searchQuery p;
     saveState := s; notification := notification p;
     selectedItems := selectedItems p; errorState := errorState p;
     net := net p; clockReads := clockReads p; timeouts := timeouts p |}.

Definition setErrorState (e : ErrorHandler.ErrorState) (p : Popup) : Popup :=
  {| items := items p; newUrl := newUrl p; newTag := newTag p;
     selectedTag := selectedTag p; searchQuery := searchQuery p;
     saveState := saveState p; notification := notification p;
     selectedItems := selectedItems p; errorState := e;
     net := net p; clockReads := clockReads p; timeouts := timeouts p |}.

Definition setInputs (u t : jsstring) (p : Popup) : Popup :=
  {| items := items p; newUrl := u; newTag := t;
     selectedTag := selectedTag p; searchQuery := searchQuery p;
     saveState := saveState p; notification := notification p;
     selectedItems := selectedItems p; errorState := errorState p;
     net := net p; clockReads := clockReads p; timeouts := timeouts p |}.

(** [showNotification(type, message)] *)
Definition showNotification (t : NotificationType) (m : jsstring)
    (p : Popup) : Popup :=
  {| items := items p; newUrl := newUrl p; newTag := newTag p;
     selectedTag := selectedTag p; searchQuery := searchQuery p;
     saveState := saveState p;
     notification := {| show := true; ntype := t; nmessage := m |};
     selectedItems := selectedItems p; errorState := errorState p;
     net := net p; clockReads := clockReads p; timeouts := timeouts p |}.

(** The outside of the popup after some work of the service, one more
    clock read, one more timeout. *)
Definition setNet (w : World) (p : Popup) : Popup :=
  {| items := items p; newUrl := newUrl p; newTag := newTag p;
     selectedTag := selectedTag p; searchQuery := searchQuery p;
     saveState := saveState p; notification := notification p;
     selectedItems := selectedItems p; errorState := errorState p;
     net := w; clockReads := clockReads p; timeouts := timeouts p |}.

Definition tick (p : Popup) : Popup :=
  {| items := items p; newUrl := newUrl p; newTag := newTag p;
     selectedTag := selectedTag p; searchQuery := searchQuery p;
     saveState := saveState p; notification := notification p;
     selectedItems := selectedItems p; errorState := errorState p;
     net := net p; clockReads := S (clockReads p); timeouts := timeouts p |}.

Definition setTimeout (ms : Z) (p : Popup) : Popup :=
  {| items := items p; newUrl := newUrl p; newTag := newTag p;
     selectedTag := selectedTag p; searchQuery := searchQuery p;
     saveState := saveState p; notification := notification p;
     selectedItems := selectedItems p; errorState := errorState p;
     net := net p; clockReads := clockReads p;
     timeouts := timeouts p ++ [ms] |}.

(** [item.tags.includes(tag)] *)
Definition hasTag (tag : jsstring) (item : SavedItem) : bool :=
  existsb (jsstring_eqb tag) (tags item).

(** [a || b] on strings. *)
Definition orString (a b : jsstring) : jsstring :=
  match a with
  | [] => b
  | _ :: _ => a
  end.

(** The function handed to [handleAsyncError] by [handleSaveItem]. *)
Definition fetchData (b : Browser) (videoUrl : jsstring)
  : World -> ErrorHandler.Settled VideoData * World :=
  fun w =>
    match fetchVideoData (host b) videoUrl w with
    | (Ok response, w') =>
        if negb (success response) then
          (ErrorHandler.Rejected
             (orString
                match error response with
                | Some e => messageOf b e
                | None => []
                end
                (lit "Failed to fetch video data")), w')
        else (ErrorHandler.Resolved (data response), w')
    | (Throw e, w') => (ErrorHandler.Rejected (messageOf b e), w')
    end.

(** [handleSaveItem(url?, tag?)].  A missing argument is [None].  The
    setters are applied in the order of the source, and no other handler
    runs while the service is awaited.  [Throw] is a rejection of the
    handler itself. *)
Definition handleSaveItem (b : Browser) (urlArg tagArg : option jsstring)
    (p : Popup) : Result Popup :=
  let p := setErrorState ErrorHandler.clearError p in
  let videoUrl := orString (match urlArg with Some u => u | None => [] end)
                    (newUrl p) in
  let videoTag := orString (match tagArg with Some t => t | None => [] end)
                    (newTag p) in
  match videoUrl with
  | [] =>
      Ok (setErrorState
            (ErrorHandler.setError (lit "Please enter a YouTube URL.")
               (Some ErrorHandler.validation)) p)
  | _ :: _ =>
      rbind (getYouTubePlaylistID videoUrl) (fun playlistId =>
      rbind (getYouTubeID videoUrl) (fun videoId =>
      if negb (truthyId videoId) && negb (truthyId playlistId) then
        Ok (setErrorState
              (ErrorHandler.setError
                 (lit "Invalid URL. Please enter a valid YouTube video or playlist URL.")
                 (Some ErrorHandler.validation)) p)
      else
        let p := setSaveState Loading p in
        match ErrorHandler.handleAsyncError (fetchData b videoUrl)
                (Some (lit "Failed to fetch video information. Please try again."))
                (net p, errorState p) with
        | (Some (Build_VideoData resultTitle resultThumbnail), (w', e')) =>
            let p := setErrorState e' (setNet w' p) in
            let newItem :=
              {| id := now b (clockReads p);
                 url := videoUrl;
                 title := resultTitle;
                 thumbnail := resultThumbnail;
                 dateAdded := now b (S (clockReads p));
                 watched := false;
                 type := if truthyId playlistId then playlist else video;
                 order :=
                   Z.of_nat (List.length (filter (hasTag videoTag) (items p)));
                 tags := match videoTag with [] => [] | _ :: _ => [videoTag] end
              |} in
            let p := tick (tick p) in
            let p := setItems (fun prevItems => newItem :: prevItems) p in
            let p := setInputs [] [] p in
            let p := setSaveState Success p in
            let p := showNotification nSuccess
                       (lit "Video saved to " ++ [34%N] ++ videoTag
                          ++ [34%N] ++ lit " tag!") p in
            Ok (setTimeout 2000 p)
        | (None, (w', e')) =>
            Ok (setSaveState Idle (setErrorState e' (setNet w' p)))
        end))
  end.


(** [handleToggleWatched(id)] *)
Definition handleToggleWatched (i : Z) (p : Popup) : Popup :=
  let p' :=
    setItems (fun _ =>
      map (fun item =>
             if (id item =? i)%Z then
               {| id := id item; url := url item; title := title item;
                  thumbnail := thumbnail item; dateAdded := dateAdded item;
                  watched := negb (watched item); type := type item;
                  order := order item; tags := tags item |}
             else item) (items p)) p in
  match find (fun item => (id item =? i)%Z) (items p) with
  | Some item =>
      showNotification nInfo
        (if watched item then lit "Marked as unwatched"
         else lit "Marked as watched") p'
  | None => p'
  end.

(** [handleSelectionChange(id, selected)] *)
Definition handleSelectionChange (i : Z) (selected : bool) (p : Popup)
  : Popup :=
  if selected then setSelectedItems (fun prev => prev ++ [i]) p
  else setSelectedItems
         (fun prev => filter (fun itemId => negb (itemId =? i)%Z) prev) p.

(** The items the current tag shows. *)
Definition filteredItems (p : Popup) : list SavedItem :=
  if jsstring_eqb (selectedTag p) (lit "all") then items p
  else filter (hasTag (selectedTag p)) (items p).

(** [handleSelectAll()] *)
Definition handleSelectAll (p : Popup) : Popup :=
  if Nat.eqb (List.length (selectedItems p)) (List.length (filteredItems p))
     && Nat.ltb 0 (List.length (filteredItems p))
  then setSelectedItems (fun _ => []) p
  else setSelectedItems (fun _ => map id (filteredItems p)) p.

(** [migrateItems(items)] *)
Definition migrateItems (l : list StoredItem) : list SavedItem :=
  map (fun '(index, item) =>
         {| id := id (stored item); url := url (stored item);
            title := title (stored item);
            thumbnail := thumbnail (stored item);
            dateAdded := dateAdded (stored item);
            watched := watched (stored item); type := type (stored item);
            order := match storedOrder item with
                     | Some o => o
                     | None => Z.of_nat index
                     end;
            tags := match storedTags item with
                    | Some t => t
                    | None => []
                    end |})
      (combine (seq 0 (List.length l)) l).

(** An item of the state as the storage holds it after a save. *)
Definition toStored (item : SavedItem) : StoredItem :=
  {| stored := item;
     storedOrder := Some (order item);
     storedTags := Some (tags item) |}.

(** [array.findIndex(pred)], -1 when nothing is found. *)
Fixpoint findIndex {A} (pred : A -> bool) (l : list A) : Z :=
  match l with
  | [] => (-1)%Z
  | x :: l' =>
      if pred x then 0%Z
      else match findIndex pred l' with
           | Zneg _ => (-1)%Z
           | j => (j + 1)%Z
           end
  end.

(** [tag === item.tags[0]] and [item.tags.includes(tag)] for a tag that
    may be undefined. *)
Definition firstTag (item : SavedItem) : option jsstring := hd_error (tags item).

Definition sameTag (a b : option jsstring) : bool :=
  match a, b with
  | Some x, Some y => jsstring_eqb x y
  | None, None => true
  | _, _ => false
  end.

Definition hasTagOpt (tag : option jsstring) (item : SavedItem) : bool :=
  match tag with
  | Some t => hasTag t item
  | None => false
  end.

(** The updater that [handleDragEnd] hands to [setItems]; [arrayMove] is
    the function of that name of the drag-and-drop library. *)
Definition reorder (arrayMove : list SavedItem -> Z -> Z -> list SavedItem)
    (selected : jsstring) (activeId overId : Z) (l : list SavedItem)
  : list SavedItem :=
  match find (fun item => (id item =? activeId)%Z) l,
        find (fun item => (id item =? overId)%Z) l with
  | Some draggedItem, Some targetItem =>
      if negb (jsstring_eqb selected (lit "all"))
         && negb (sameTag (firstTag draggedItem) (firstTag targetItem))
      then l
      else
        let oldIndex := findIndex (fun item => (id item =? activeId)%Z) l in
        let newIndex := findIndex (fun item => (id item =? overId)%Z) l in
        let newItems := arrayMove l oldIndex newIndex in
        let tagToUpdate :=
          if jsstring_eqb selected (lit "all") then firstTag draggedItem
          else Some selected in
        map (fun item =>
               if hasTagOpt tagToUpdate item then
                 let tagItems := filter (hasTagOpt tagToUpdate) newItems in
                 let tagOrder :=
                   findIndex (fun tagItem => (id tagItem =? id item)%Z)
                     tagItems in
                 {| id := id item; url := url item; title := title item;
                    thumbnail := thumbnail item; dateAdded := dateAdded item;
                    watched := watched item; type := type item;
                    order := tagOrder; tags := tags item |}
               else item) newItems
  | _, _ => l
  end.

(** [handleDragEnd(event)]: [over] is null when the item is dropped
    outside the list. *)
Definition handleDragEnd
    (arrayMove : list SavedItem -> Z -> Z -> list SavedItem)
    (activeId : Z) (over : option Z) (p : Popup) : Popup :=
  match over with
  | Some overId =>
      if negb (activeId =? overId)%Z
      then setItems (reorder arrayMove (selectedTag p) activeId overId) p
      else p
  | None => p
  end.

(** [a < b] on strings: the order of the code units, which is the order
    of [sort()] without a comparator. *)
Fixpoint stringLt (a b : jsstring) : bool :=
  match a, b with
  | _, [] => false
  | [], _ :: _ => true
  | x :: a', y :: b' => (x <? y)%N || ((x =? y)%N && stringLt a' b')
  end.

(** [Array.from(new Set(l))]: the first occurrence of each string. *)
Fixpoint unique (l : list jsstring) : list jsstring :=
  match l with
  | [] => []
  | x :: l' => x :: filter (fun y => negb (jsstring_eqb x y)) (unique l')
  end.

Fixpoint insertSorted (x : jsstring) (l : list jsstring) : list jsstring :=
  match l with
  | [] => [x]
  | y :: l' => if stringLt y x then y :: insertSorted x l' else x :: l
  end.

(** [l.sort()] on strings. *)
Definition sort (l : list jsstring) : list jsstring :=
  fold_right insertSorted [] l.

(** [getAllTags()] *)
Definition getAllTags (p : Popup) : list jsstring :=
  sort (unique (flat_map tags (items p))).

End App.

(* ===================================================================== *)
(** ** Test doubles of the popup *)
(* ===================================================================== *)

(** A browser around a host: a clock that advances by one millisecond at
    each read, and one message for every error of the engine. *)
Definition browserOf (h : Host) : App.Browser :=
  {| App.host := h;
     App.now := fun n => (1767225600000 + Z.of_nat n)%Z;
     App.messageOf := fun _ => lit "error" |}.

(** The popup right after it was opened with the given items and the
    given text in the url field. *)
Definition popupWith (l : list App.SavedItem) (u : jsstring) : App.Popup :=
  {| App.items := l; App.newUrl := u; App.newTag := [];
     App.selectedTag := lit "all"; App.searchQuery := [];
     App.saveState := App.Idle;
     App.notification :=
       {| App.show := false; App.ntype := App.nInfo; App.nmessage := [] |};
     App.selectedItems := []; App.errorState := ErrorHandler.clearError;
     App.net := []; App.clockReads := 0; App.timeouts := [] |}.

(** An item with the given id and tags. *)
Definition itemOf (i : Z) (t : list jsstring) : App.SavedItem :=
  {| App.id := i; App.url := lit "https://youtu.be/dQw4w9WgXcQ";
     App.title := VStr (lit "Test Video"); App.thumbnail := VStr [];
     App.dateAdded := i; App.watched := false; App.type := App.video;
     App.order := 0; App.tags := t |}.

(** A stand-in for [arrayMove]: the element at index [from] is taken out
    and put back at index [to]. *)
Definition moveItem (l : list App.SavedItem) (from to : Z)
  : list App.SavedItem :=
  match nth_error l (Z.to_nat from) with
  | Some x =>
      let others := firstn (Z.to_nat from) l ++ skipn (S (Z.to_nat from)) l in
      firstn (Z.to_nat to) others ++ x :: skipn (Z.to_nat to) others
  | None => l
  end.

(* ===================================================================== *)
(** * Properties *)
(* ===================================================================== *)

Unset Implicit Arguments.

(** ** The matcher *)

Lemma strip_prefix_app p s : strip_prefix p (p ++ s) = Some s.
Proof.
  induction p as [|a p IH]; simpl; [reflexivity|].
  rewrite N.eqb_refl. exact IH.
Qed.

Lemma strip_prefix_inv p :
  forall s s', strip_prefix p s = Some s' -> s = p ++ s'.
Proof.
  induction p as [|a p IH]; simpl; intros s s' H.
  - congruence.
  - destruct s as [|b s]; [discriminate|].
    destruct (N.eqb_spec a b); [|discriminate].
    subst. f_equal. auto.
Qed.

Lemma take_while_app p cand post :
  Forall (fun c => p c = true) cand ->
  match post with [] => True | c :: _ => p c = false end ->
  take_while p (cand ++ post) = cand /\ drop_while p (cand ++ post) = post.
Proof.
  induction 1 as [|c cand Hc _ IH]; intros Hpost; simpl.
  - destruct post as [|d post]; simpl; [auto|]. rewrite Hpost. auto.
  - rewrite Hc. destruct (IH Hpost) as [-> ->]. auto.
Qed.

(** With a continuation that cannot fail, a greedy star takes the longest
    run and never backtracks. *)
Lemma star_greedy_total p k :
  (forall st, k st <> None) ->
  forall s n cs,
    star_greedy p n s cs k
    = k (MState (n + List.length (take_while p s)) (drop_while p s) cs).
Proof.
  intros Hk; induction s as [|c s IH]; intros n cs; simpl.
  - rewrite Nat.add_0_r. reflexivity.
  - destruct (p c); simpl.
    + rewrite IH, <- Nat.add_succ_comm.
      destruct (k _) eqn:E; [reflexivity|]. now apply Hk in E.
    + rewrite Nat.add_0_r. reflexivity.
Qed.

(** When the continuation fails at every later index the star can reach,
    the star hands over at the index where it started. *)
Lemma star_greedy_stay p k cs :
  forall s n,
    (forall pre suf, s = pre ++ suf -> pre <> [] ->
       Forall (fun c => p c = true) pre ->
       k (MState (n + List.length pre) suf cs) = None) ->
    star_greedy p n s cs k = k (MState n s cs).
Proof.
  induction s as [|c s IH]; intros n Hfail; simpl; [reflexivity|].
  destruct (p c) eqn:Hc; [|reflexivity].
  rewrite IH.
  - assert (H1 : k (MState (n + List.length [c]) s cs) = None).
    { apply Hfail; [reflexivity|discriminate|].
      constructor; [exact Hc|constructor]. }
    simpl in H1. rewrite Nat.add_1_r in H1. rewrite H1. reflexivity.
  - intros pre suf -> Hne Hall.
    specialize (Hfail (c :: pre) suf eq_refl).
    simpl in Hfail. rewrite <- Nat.add_succ_comm in Hfail.
    apply Hfail; [discriminate|]. constructor; assumption.
Qed.

(** The star walks over a run of the class to the last index at which the
    continuation succeeds. *)
Lemma star_greedy_reach p k cs r :
  forall pre s n,
    Forall (fun c => p c = true) pre ->
    k (MState (n + List.length pre) s cs) = Some r ->
    (forall pre' suf, s = pre' ++ suf -> pre' <> [] ->
       Forall (fun c => p c = true) pre' ->
       k (MState (n + List.length pre + List.length pre') suf cs) = None) ->
    star_greedy p n (pre ++ s) cs k = Some r.
Proof.
  induction pre as [|c pre IH]; intros s n Hall Hk Hfail; simpl in *.
  - rewrite Nat.add_0_r in *. rewrite star_greedy_stay; assumption.
  - inversion Hall as [|? ? Hc Hall']; subst. rewrite Hc.
    rewrite (IH s (S n) Hall').
    + reflexivity.
    + rewrite <- Nat.add_succ_comm in Hk. exact Hk.
    + intros pre' suf E Hne Hp. specialize (Hfail pre' suf E Hne Hp).
      rewrite <- Nat.add_succ_comm in Hfail. exact Hfail.
Qed.

(** Whatever a matcher answers was answered by its continuation. *)
Lemma star_greedy_from_cont p k x :
  forall s n cs,
    star_greedy p n s cs k = Some x ->
    exists n' s', k (MState n' s' cs) = Some x.
Proof.
  induction s as [|c s IH]; intros n cs H; simpl in H; [eauto|].
  destruct (p c); [|eauto].
  destruct (star_greedy p (S n) s cs k) eqn:E; [|eauto].
  inversion H; subst. eapply IH; eassumption.
Qed.

Lemma rmatch_from_cont r :
  forall st k x, rmatch r st k = Some x -> exists st', k st' = Some x.
Proof.
  induction r as [|p|l|p|r1 IH1 r2 IH2|r1 IH1 r2 IH2|i r1 IH1];
    intros st k x H; simpl in H.
  - destruct (Nat.eqb (pos st) 0); [eauto|discriminate].
  - destruct (rest st) as [|c s']; [discriminate|].
    destruct (p c); [eauto|discriminate].
  - destruct (strip_prefix l (rest st)); [eauto|discriminate].
  - apply star_greedy_from_cont in H. destruct H as (n' & s' & H). eauto.
  - apply IH1 in H. destruct H as (st1 & H). eapply IH2; eassumption.
  - destruct (rmatch r1 st k) eqn:E.
    + inversion H; subst. eapply IH1; eassumption.
    + eapply IH2; eassumption.
  - apply IH1 in H. destruct H as (st1 & H). eauto.
Qed.

Lemma exec_from_inv r x :
  forall s n,
    exec_from r n s = Some x ->
    exists n' s', rmatch r (MState n' s' []) Some = Some x.
Proof.
  induction s as [|c s IH]; intros n H; simpl in H.
  - destruct (rmatch r (MState n [] []) Some) eqn:E; [|discriminate].
    inversion H; subst. eauto.
  - destruct (rmatch r (MState n (c :: s) []) Some) eqn:E.
    + inversion H; subst. eauto.
    + eapply IH; eassumption.
Qed.

(** ** The video pattern *)

Lemma videoMarkers_match m s n cs k :
  marker m ->
  rmatch videoMarkers (MState n (m ++ s) cs) k
  = k (MState (n + List.length m) s cs).
Proof.
  intros Hm; destruct Hm; unfold videoMarkers; cbn.
  all: try match goal with H : _ = true |- _ => rewrite H end.
  all: try replace (S (n + 5 + 3)) with (n + 9) by lia.
  all: try replace (S (n + 2 + 1)) with (n + 4) by lia.
  all: try destruct (k _); reflexivity.
Qed.

Lemma videoMarkers_fail s n cs k :
  ~ starts_with_marker s ->
  rmatch videoMarkers (MState n s cs) k = None.
Proof.
  intros Hno. unfold videoMarkers. cbn [rmatch pos rest caps].
  assert (Hlit : forall l, marker l -> strip_prefix l s = None).
  { intros l Hl. destruct (strip_prefix l s) as [s'|] eqn:E; [|reflexivity].
    apply strip_prefix_inv in E. exfalso. apply Hno. exists l, s'. auto. }
  rewrite (Hlit _ marker_v), (Hlit _ marker_embed),
    (Hlit _ marker_watch), (Hlit _ marker_amp).
  destruct (strip_prefix (lit "youtu") s) as [s1|] eqn:E1.
  { apply strip_prefix_inv in E1.
    destruct s1 as [|c s2]; [|destruct (dot c) eqn:Hc].
    2:{ destruct (strip_prefix (lit "be/") s2) as [s3|] eqn:E2.
        - apply strip_prefix_inv in E2. exfalso. apply Hno.
          exists (lit "youtu" ++ [c] ++ lit "be/"), s3.
          split; [now constructor|]. subst. reflexivity.
        - destruct (strip_prefix (lit "u/") s) as [t1|] eqn:E3;
            [|reflexivity].
          apply strip_prefix_inv in E3. subst s. discriminate. }
    all: destruct (strip_prefix (lit "u/") s) as [t1|] eqn:E3;
      [|reflexivity].
    all: apply strip_prefix_inv in E3; subst s; discriminate. }
  destruct (strip_prefix (lit "u/") s) as [t1|] eqn:E3; [|reflexivity].
  apply strip_prefix_inv in E3.
  destruct t1 as [|c t2]; [reflexivity|]. destruct (wordChar c) eqn:Hc;
    [|reflexivity].
  destruct (strip_prefix (lit "/") t2) as [t3|] eqn:E4; [|reflexivity].
  apply strip_prefix_inv in E4. exfalso. apply Hno.
  exists (lit "u/" ++ [c] ++ lit "/"), t3.
  split; [now constructor|]. subst. reflexivity.
Qed.

Lemma ends_candidate_stop post :
  ends_candidate post ->
  match post with [] => True | c :: _ => noneOf "#&?" c = false end.
Proof.
  destruct post as [|c post]; simpl; [auto|].
  unfold noneOf. intros ->. reflexivity.
Qed.

Lemma star_dot_total st' :
  (fun st : mstate => rmatch (Star dot) st Some) st' <> None.
Proof.
  cbn [rmatch]. rewrite star_greedy_total by discriminate. discriminate.
Qed.

(** At a marker followed by a candidate the rest of the pattern succeeds,
    and its second group is the candidate. *)
Lemma video_tail_match n m cand post cs :
  marker m ->
  Forall (fun c => noneOf "#&?" c = true) cand ->
  ends_candidate post ->
  exists n' s',
    rmatch (Cat (Group 1 videoMarkers)
              (Cat (Group 2 (Star (noneOf "#&?"))) (Star dot)))
      (MState n (m ++ cand ++ post) cs) Some
    = Some (MState n' s' ((2, cand) :: (1, m) :: cs)).
Proof.
  intros Hm Hcand Hpost.
  cbn [rmatch]. rewrite videoMarkers_match by assumption.
  cbn [pos rest caps].
  rewrite star_greedy_total.
  2:{ intros st. cbn [pos rest caps].
      rewrite star_greedy_total by discriminate. discriminate. }
  cbn [pos rest caps].
  rewrite star_greedy_total by discriminate.
  destruct (take_while_app (noneOf "#&?") cand post Hcand
              (ends_candidate_stop post Hpost)) as [-> ->].
  replace (n + List.length m - n) with (List.length m) by lia.
  replace (n + List.length m + List.length cand - (n + List.length m))
    with (List.length cand) by lia.
  rewrite firstn_app, Nat.sub_diag, firstn_all. simpl firstn at 2.
  rewrite app_nil_r.
  rewrite firstn_app, Nat.sub_diag, firstn_all. simpl firstn.
  rewrite app_nil_r.
  eauto.
Qed.

Lemma video_tail_fail n s cs r k :
  ~ starts_with_marker s ->
  rmatch (Cat (Group 1 videoMarkers) r) (MState n s cs) k = None.
Proof.
  intros Hno. cbn [rmatch]. apply videoMarkers_fail. exact Hno.
Qed.

Lemma exec_from_head r n s x :
  rmatch r (MState n s []) Some = Some x -> exec_from r n s = Some x.
Proof.
  intros H. destruct s; simpl; rewrite H; reflexivity.
Qed.

(** What [getYouTubeID] answers on a url that shows a candidate after its
    last marker. *)
Lemma getYouTubeID_shape url pre m cand post :
  shows_candidate url pre m cand post ->
  Forall (fun c => dot c = true) pre ->
  last_marker_at url (List.length pre) ->
  getYouTubeID url
  = Ok (if Nat.eqb (List.length cand) 11 then Some cand else None).
Proof.
  intros (Hurl & Hm & Hcand & Hpost) Hpre Hlast.
  destruct (video_tail_match (List.length pre) m cand post [] Hm Hcand Hpost)
    as (n' & s' & Htail).
  assert (Hexec : exec videoRegExp url
                  = Some (MState n' s' [(2, cand); (1, m)])).
  { apply exec_from_head.
    change (rmatch videoRegExp (MState 0 url []) Some)
      with (star_greedy dot 0 url []
              (fun st => rmatch (Cat (Group 1 videoMarkers)
                 (Cat (Group 2 (Star (noneOf "#&?"))) (Star dot))) st Some)).
    rewrite Hurl.
    apply star_greedy_reach; [exact Hpre|exact Htail|].
    intros pre' suf E Hne Hdot.
    apply video_tail_fail.
    apply (Hlast (pre ++ pre') suf).
    - rewrite Hurl, E, app_assoc. reflexivity.
    - rewrite length_app. destruct pre'; [congruence|simpl; lia].
    - apply Forall_app; auto. }
  unfold getYouTubeID. rewrite Hexec. cbn [caps group Nat.eqb].
  destruct (Nat.eqb (List.length cand) 11); reflexivity.
Qed.

(** Every match of the video pattern defines its second group. *)
Lemma videoRegExp_group2 url x :
  exec videoRegExp url = Some x -> exists g, group 2 (caps x) = Some g.
Proof.
  intros H. apply exec_from_inv in H. destruct H as (n & s & H).
  unfold videoRegExp in H. cbn [rmatch] in H.
  destruct (Nat.eqb (pos (MState n s [])) 0); [|discriminate].
  apply star_greedy_from_cont in H. destruct H as (n1 & s1 & H).
  apply rmatch_from_cont in H. destruct H as (st1 & H).
  apply star_greedy_from_cont in H. destruct H as (n2 & s2 & H).
  cbn [pos rest caps] in H.
  rewrite star_greedy_total in H by discriminate.
  inversion H; subst. cbn. eauto.
Qed.

Lemma getYouTubeID_total url : exists r, getYouTubeID url = Ok r.
Proof.
  unfold getYouTubeID.
  destruct (exec videoRegExp url) as [x|] eqn:E; [|eauto].
  destruct (videoRegExp_group2 url x E) as (g & ->).
  destruct (Nat.eqb (List.length g) 11); eauto.
Qed.

Lemma getYouTubeID_length url i :
  getYouTubeID url = Ok (Some i) -> List.length i = 11.
Proof.
  unfold getYouTubeID.
  destruct (exec videoRegExp url) as [x|]; [|discriminate].
  destruct (group 2 (caps x)) as [g|]; [|discriminate].
  destruct (Nat.eqb_spec (List.length g) 11); [|discriminate].
  intros H. inversion H; subst. assumption.
Qed.

(** ** The playlist pattern *)

Lemma playlistRegExp_capture n s x :
  rmatch playlistRegExp (MState n s []) Some = Some x ->
  exists c g, caps x = [(1, c :: g)].
Proof.
  unfold playlistRegExp. cbn [rmatch pos rest caps]. intros H.
  destruct s as [|c0 s0]; [discriminate|].
  destruct (oneOf "?&" c0); [|discriminate].
  destruct (strip_prefix (lit "list=") s0) as [s1|]; [|discriminate].
  cbn [pos rest caps] in H.
  destruct s1 as [|c1 s2]; [discriminate|].
  destruct (noneOf "#&?" c1); [|discriminate].
  cbn [pos rest caps] in H.
  rewrite star_greedy_total in H by discriminate.
  inversion H; subst; clear H. cbn [caps].
  match goal with
  | |- context [firstn ?j (c1 :: s2)] =>
      replace j with (S (List.length (take_while (noneOf "#&?") s2)))
  end.
  - cbn [firstn]. eauto.
  - destruct (n + 5) as [|l] eqn:E5; lia.
Qed.

(** A playlist id, when there is one, is not the empty string. *)
Lemma getYouTubePlaylistID_nonempty url p :
  getYouTubePlaylistID url = Ok (Some p) -> p <> [].
Proof.
  unfold getYouTubePlaylistID.
  destruct (exec playlistRegExp url) as [x|] eqn:E; [|discriminate].
  apply exec_from_inv in E. destruct E as (n & s & E).
  apply playlistRegExp_capture in E. destruct E as (c & g & E).
  rewrite E. cbn. intros H. inversion H; subst. discriminate.
Qed.

Lemma getYouTubePlaylistID_total url :
  exists r, getYouTubePlaylistID url = Ok r.
Proof.
  unfold getYouTubePlaylistID. destruct (exec playlistRegExp url); eauto.
Qed.

Lemma truthyId_video url v :
  getYouTubeID url = Ok v ->
  truthyId v = match v with Some _ => true | None => false end.
Proof.
  intros H. destruct v as [i|]; [|reflexivity].
  apply getYouTubeID_length in H. destruct i; [discriminate|reflexivity].
Qed.

Lemma truthyId_playlist url p :
  getYouTubePlaylistID url = Ok p ->
  truthyId p = match p with Some _ => true | None => false end.
Proof.
  intros H. destruct p as [i|]; [|reflexivity].
  apply getYouTubePlaylistID_nonempty in H.
  destruct i; [congruence|reflexivity].
Qed.

(** ** The retrier *)

Section Retrier.

Context {W : Type} {T : Timer W} {A : Type}.
Variable cfg : RetryConfig.

(** One turn of the recursion of [retryWithBackoff]. *)
Lemma retryWithBackoff_step (operation : M W A) retryCount w :
  retryWithBackoff cfg operation retryCount w
  = match operation w with
    | (Ok a, w1) => (Ok a, w1)
    | (Throw e, w1) =>
        if maxRetries cfg <=? retryCount then (Throw e, w1)
        else retryWithBackoff cfg operation (S retryCount)
               (delay (backoffDelay cfg retryCount) w1)
    end.
Proof.
  simp retryWithBackoff.
  destruct (operation w) as [[a|e] w1]; simpl; [reflexivity|].
  destruct (le_lt_dec (maxRetries cfg) retryCount) as [Hle|Hlt]; simpl.
  - apply Nat.leb_le in Hle. rewrite Hle. reflexivity.
  - apply Nat.leb_gt in Hlt. rewrite Hlt. reflexivity.
Qed.

(** A result that [retryWithBackoff] returns is the result of one
    invocation of the operation, and nothing happens after it. *)
Lemma retryWithBackoff_ok_inv (operation : M W A) a w' :
  forall d retryCount w,
    maxRetries cfg - retryCount = d ->
    retryWithBackoff cfg operation retryCount w = (Ok a, w') ->
    exists w0, operation w0 = (Ok a, w').
Proof.
  induction d as [|d IH]; intros k w Hd H;
    rewrite retryWithBackoff_step in H;
    destruct (operation w) as [[a0|e] w1] eqn:E.
  - inversion H; subst. eauto.
  - destruct (Nat.leb_spec (maxRetries cfg) k); [discriminate|lia].
  - inversion H; subst. eauto.
  - destruct (Nat.leb_spec (maxRetries cfg) k); [discriminate|].
    apply (IH (S k) _ ltac:(lia) H).
Qed.

End Retrier.

Section ObservedRetrier.

Context {W : Type} {T : Timer W} {A : Type}.
Variable cfg : RetryConfig.
Variable operation : M W A.

(** The counters do not change what the retrier does. *)
Lemma observed_erase :
  forall d retryCount o,
    maxRetries cfg - retryCount = d ->
    retryWithBackoff cfg operation retryCount (inner o)
    = (fst (retryWithBackoff cfg (observed operation) retryCount o),
       inner (snd (retryWithBackoff cfg (observed operation) retryCount o))).
Proof.
  induction d as [|d IH]; intros k o Hd;
    rewrite (retryWithBackoff_step cfg operation),
      (retryWithBackoff_step cfg (observed operation));
    unfold observed at 1 3;
    destruct (operation (inner o)) as [[a|e] w1]; try reflexivity.
  - destruct (Nat.leb_spec (maxRetries cfg) k); [reflexivity|lia].
  - destruct (Nat.leb_spec (maxRetries cfg) k); [reflexivity|].
    rewrite <- (IH (S k)) by lia. reflexivity.
Qed.

(** Each run invokes the operation once more than it waits, and waits
    the delays of the retry counts 0, 1, 2, ... in this order. *)
Lemma observed_run :
  forall d retryCount o,
    maxRetries cfg - retryCount = d ->
    exists n,
      n <= d /\
      invocations (snd (retryWithBackoff cfg (observed operation)
                          retryCount o))
      = invocations o + S n /\
      delays (snd (retryWithBackoff cfg (observed operation)
                     retryCount o))
      = delays o ++ map (backoffDelay cfg) (seq retryCount n).
Proof.
  induction d as [|d IH]; intros k o Hd;
    rewrite (retryWithBackoff_step cfg (observed operation));
    unfold observed at 1 3;
    destruct (operation (inner o)) as [[a|e] w1].
  1, 3: exists 0; cbn; rewrite app_nil_r; repeat split; lia.
  - destruct (Nat.leb_spec (maxRetries cfg) k); [|lia].
    exists 0; cbn; rewrite app_nil_r; repeat split; lia.
  - destruct (Nat.leb_spec (maxRetries cfg) k); [lia|].
    destruct (IH (S k)
      (delay (backoffDelay cfg k)
         {| inner := w1; invocations := S (invocations o);
            delays := delays o |}) ltac:(lia)) as (n & Hn & Hi & Hd').
    exists (S n). rewrite Hi, Hd'. cbn.
    rewrite <- app_assoc. repeat split; try lia.
Qed.

(** An operation that always fails is invoked [maxRetries + 1] times from
    retry count 0, and the failure returned is the one of the last
    invocation. *)
Lemma observed_exhaust :
  always_fails operation ->
  forall d retryCount o,
    maxRetries cfg - retryCount = d ->
    exists e wl o',
      retryWithBackoff cfg (observed operation) retryCount o
      = (Throw e, o') /\
      invocations o' = invocations o + S d /\
      delays o' = delays o ++ map (backoffDelay cfg) (seq retryCount d) /\
      operation wl = (Throw e, inner o').
Proof.
  intros Hfail.
  induction d as [|d IH]; intros k o Hd;
    rewrite (retryWithBackoff_step cfg (observed operation));
    unfold observed at 1;
    destruct (Hfail (inner o)) as (e & w1 & E); rewrite E.
  - destruct (Nat.leb_spec (maxRetries cfg) k); [|lia].
    exists e, (inner o), {| inner := w1; invocations := S (invocations o);
                            delays := delays o |}.
    cbn. rewrite app_nil_r. repeat split; [lia|exact E].
  - destruct (Nat.leb_spec (maxRetries cfg) k); [lia|].
    destruct (IH (S k)
      (delay (backoffDelay cfg k)
         {| inner := w1; invocations := S (invocations o);
            delays := delays o |}) ltac:(lia))
      as (e' & wl & o' & Hr & Hi & Hd' & Hop).
    exists e', wl, o'. rewrite Hr, Hi, Hd'. cbn.
    rewrite <- app_assoc. repeat split; [lia|exact Hop].
Qed.

End ObservedRetrier.

Lemma nth_error_map_seq {B} (f : nat -> B) n :
  forall start k d,
    nth_error (map f (seq start n)) k = Some d -> d = f (start + k).
Proof.
  induction n as [|n IH]; intros start k d H; simpl in H.
  - destruct k; discriminate.
  - destruct k as [|k]; simpl in H.
    + inversion H. rewrite Nat.add_0_r. reflexivity.
    + apply IH in H. rewrite H. f_equal. lia.
Qed.

Lemma always_fails_rejecting : always_fails rejecting.
Proof. intros m. unfold rejecting. eauto. Qed.

(** C2. An operation that fails on every invocation is invoked exactly
    [maxRetries + 1] times (4 times under the fixed configuration), and
    the failure that reaches the caller is the one of the last invocation;
    an invocation that succeeds ends the run at once: its result is
    returned and the operation is not invoked again. *)
Theorem retryWithBackoff_attempts :
  forall (W : Type) (T : Timer W) (A : Type) (operation : M W A),
    (forall cfg : RetryConfig,
       always_fails operation ->
       forall w, exists e wl o',
         retryWithBackoff cfg (observed operation) 0 (observe w)
         = (Throw e, o') /\
         invocations o' = maxRetries cfg + 1 /\
         operation wl = (Throw e, inner o')) /\
    (always_fails operation ->
     forall w,
       invocations (snd (retryWithBackoff retryConfig (observed operation) 0
                           (observe w))) = 4) /\
    (forall (cfg : RetryConfig) retryCount o a w',
       operation (inner o) = (Ok a, w') ->
       retryWithBackoff cfg (observed operation) retryCount o
       = (Ok a, {| inner := w';
                   invocations := S (invocations o);
                   delays := delays o |})).
Proof.
  intros W T A operation. split; [|split].
  - intros cfg Hfail w.
    destruct (observed_exhaust cfg operation Hfail (maxRetries cfg) 0
                (observe w) ltac:(lia))
      as (e & wl & o' & Hr & Hi & _ & Hop).
    exists e, wl, o'. cbn in Hi. repeat split; [exact Hr|lia|exact Hop].
  - intros Hfail w.
    destruct (observed_exhaust retryConfig operation Hfail 3 0
                (observe w) eq_refl)
      as (e & wl & o' & Hr & Hi & _ & _).
    rewrite Hr. exact Hi.
  - intros cfg k o a w' E.
    rewrite (retryWithBackoff_step cfg (observed operation)).
    unfold observed at 1. rewrite E. reflexivity.
Qed.

Lemma retryWithBackoff_attempts_witness :
  (exists e wl o',
     retryWithBackoff retryConfig (observed rejecting) 0
       (observe {| calls := 0; waited := 0 |}) = (Throw e, o') /\
     invocations o' = 3 + 1 /\
     rejecting wl = (Throw e, inner o')) /\
  retryWithBackoff retryConfig (observed (flaky 2)) 2
    {| inner := {| calls := 2; waited := 3000 |};
       invocations := 2; delays := [1000; 2000]%Z |}
  = (Ok 2, {| inner := {| calls := 3; waited := 3000 |};
              invocations := 3; delays := [1000; 2000]%Z |}).
Proof.
  split.
  - apply (proj1 (retryWithBackoff_attempts Mock _ unit rejecting)
             retryConfig always_fails_rejecting).
  - apply (proj2 (proj2 (retryWithBackoff_attempts Mock _ nat (flaky 2)))
             retryConfig 2
             {| inner := {| calls := 2; waited := 3000 |};
                invocations := 2; delays := [1000; 2000]%Z |}).
    reflexivity.
Defined.

(** C3. The delay waited before the retry with 0-indexed retry count [k]
    is [min (baseDelay * backoffFactor ^ k) maxDelay], hence at most
    [maxDelay]; under the fixed configuration an operation that keeps
    failing waits 1000, 2000 and 4000 ms, and with [maxRetries = 5] the
    fifth delay is capped at 10000 ms. *)
Theorem backoff_delay_formula :
  forall (W : Type) (T : Timer W) (A : Type) (operation : M W A) (w : W),
    (forall cfg : RetryConfig,
       let o' := snd (retryWithBackoff cfg (observed operation) 0
                        (observe w)) in
       List.length (delays o') <= maxRetries cfg /\
       invocations o' = S (List.length (delays o')) /\
       forall k d,
         nth_error (delays o') k = Some d ->
         d = Z.min (baseDelay cfg * backoffFactor cfg ^ Z.of_nat k)
               (maxDelay cfg) /\
         (d <= maxDelay cfg)%Z) /\
    (always_fails operation ->
       delays (snd (retryWithBackoff retryConfig (observed operation) 0
                      (observe w)))
       = [1000; 2000; 4000]%Z /\
       delays (snd (retryWithBackoff
                      {| maxRetries := 5; baseDelay := 1000;
                         maxDelay := 10000; backoffFactor := 2 |}
                      (observed operation) 0 (observe w)))
       = [1000; 2000; 4000; 8000; 10000]%Z).
Proof.
  intros W T A operation w. split.
  - intros cfg o'.
    destruct (observed_run cfg operation (maxRetries cfg) 0 (observe w)
                ltac:(lia)) as (n & Hn & Hi & Hd).
    fold o' in Hi, Hd. cbn in Hi, Hd. rewrite Hd.
    rewrite length_map, length_seq. repeat split; [lia|lia| |].
    + apply nth_error_map_seq in H. subst d. reflexivity.
    + apply nth_error_map_seq in H. subst d. apply Z.le_min_r.
  - intros Hfail. split.
    + destruct (observed_exhaust retryConfig operation Hfail 3 0
                  (observe w) eq_refl) as (e & wl & o' & Hr & _ & Hd & _).
      rewrite Hr. exact Hd.
    + destruct (observed_exhaust
                  {| maxRetries := 5; baseDelay := 1000;
                     maxDelay := 10000; backoffFactor := 2 |}
                  operation Hfail 5 0 (observe w) eq_refl)
        as (e & wl & o' & Hr & _ & Hd & _).
      rewrite Hr. exact Hd.
Qed.

Lemma backoff_delay_formula_witness :
  delays (snd (retryWithBackoff retryConfig (observed rejecting) 0
                 (observe {| calls := 0; waited := 0 |})))
  = [1000; 2000; 4000]%Z /\
  delays (snd (retryWithBackoff
                 {| maxRetries := 5; baseDelay := 1000;
                    maxDelay := 10000; backoffFactor := 2 |}
                 (observed rejecting) 0
                 (observe {| calls := 0; waited := 0 |})))
  = [1000; 2000; 4000; 8000; 10000]%Z.
Proof.
  apply (proj2 (backoff_delay_formula Mock _ unit rejecting
                  {| calls := 0; waited := 0 |})
           always_fails_rejecting).
Defined.

(** ** The video id extractor *)

Lemma marker_here_complete s : starts_with_marker s -> marker_here s = true.
Proof.
  intros (m & s' & Hm & ->). unfold marker_here.
  rewrite videoMarkers_match by assumption. reflexivity.
Qed.

Lemma marker_later_sound n :
  forall s i,
    marker_later n i s = false ->
    forall pre' suf,
      s = pre' ++ suf -> n < i + List.length pre' ->
      Forall (fun c => dot c = true) pre' -> ~ starts_with_marker suf.
Proof.
  induction s as [|c s IH]; intros i H pre' suf E Hlt Hdot Hm;
    cbn [marker_later] in H; apply orb_false_iff in H; destruct H as [H1 H2].
  - destruct pre'; [|discriminate]. simpl in *. subst suf.
    apply marker_here_complete in Hm. rewrite Hm, andb_true_r in H1.
    apply Nat.ltb_ge in H1. lia.
  - destruct pre' as [|c' pre'].
    + simpl in *. subst suf.
      apply marker_here_complete in Hm. rewrite Hm, andb_true_r in H1.
      apply Nat.ltb_ge in H1. lia.
    + simpl in E. inversion E; subst c' s.
      inversion Hdot as [|? ? Hc Hdot']; subst.
      rewrite Hc in H2. simpl in H2.
      apply (IH (S i) H2 pre' suf eq_refl); [simpl in Hlt; lia| |]; assumption.
Qed.

Lemma last_marker_at_decide url n :
  marker_later n 0 url = false -> last_marker_at url n.
Proof.
  intros H pre' suf E Hlt Hdot.
  apply (marker_later_sound n url 0 H pre' suf E); [lia|exact Hdot].
Qed.

(** C7. [getYouTubeID] never throws; an id it returns is the second group
    of the match and is exactly 11 code units long; a match whose second
    group has any other length yields null, as on [watch?v=short]. *)
Theorem getYouTubeID_length_gate :
  (forall url : jsstring,
     (exists r, getYouTubeID url = Ok r) /\
     (forall i,
        getYouTubeID url = Ok (Some i) ->
        List.length i = 11 /\
        exists x, exec videoRegExp url = Some x /\
                  group 2 (caps x) = Some i) /\
     (forall x g,
        exec videoRegExp url = Some x -> group 2 (caps x) = Some g ->
        List.length g <> 11 -> getYouTubeID url = Ok None)) /\
  getYouTubeID (lit "https://www.youtube.com/watch?v=short") = Ok None /\
  (forall pre post,
     Forall (fun c => dot c = true) pre -> ends_candidate post ->
     last_marker_at (pre ++ lit "watch?v=" ++ lit "short" ++ post)
       (List.length pre) ->
     getYouTubeID (pre ++ lit "watch?v=" ++ lit "short" ++ post) = Ok None).
Proof.
  split; [|split].
  - intros url. split; [apply getYouTubeID_total|]. split.
    + intros i H. split; [exact (getYouTubeID_length url i H)|].
      unfold getYouTubeID in H.
      destruct (exec videoRegExp url) as [x|]; [|discriminate].
      destruct (group 2 (caps x)) as [g|] eqn:G; [|discriminate].
      destruct (Nat.eqb (List.length g) 11); [|discriminate].
      inversion H; subst. eauto.
    + intros x g E G Hlen. unfold getYouTubeID. rewrite E, G.
      apply Nat.eqb_neq in Hlen. rewrite Hlen. reflexivity.
  - vm_compute. reflexivity.
  - intros pre post Hpre Hpost Hlast.
    rewrite (getYouTubeID_shape _ pre (lit "watch?v=") (lit "short") post);
      [reflexivity| |exact Hpre|exact Hlast].
    repeat split; [constructor| |exact Hpost].
    repeat constructor.
Qed.

Lemma getYouTubeID_length_gate_witness :
  List.length (lit "dQw4w9WgXcQ") = 11 /\
  getYouTubeID (lit "https://example.org/" ++ lit "watch?v=" ++ lit "short"
                  ++ lit "&t=1") = Ok None.
Proof.
  split.
  - apply (proj1 (proj2 (proj1 getYouTubeID_length_gate
             (lit "https://www.youtube.com/watch?v=dQw4w9WgXcQ")))
             (lit "dQw4w9WgXcQ")).
    vm_compute. reflexivity.
  - apply (proj2 (proj2 getYouTubeID_length_gate)
             (lit "https://example.org/") (lit "&t=1")).
    + repeat constructor.
    + reflexivity.
    + apply last_marker_at_decide. vm_compute. reflexivity.
Defined.

(** C8, as the code has it.  When a url shows an 11-character candidate
    after one of the six markers of the pattern, no line terminator comes
    before that marker and no marker starts later on the first line, then
    [getYouTubeID] returns that candidate. *)
Theorem getYouTubeID_accepts :
  forall url pre m i post,
    shows_candidate url pre m i post ->
    List.length i = 11 ->
    Forall (fun c => dot c = true) pre ->
    last_marker_at url (List.length pre) ->
    getYouTubeID url = Ok (Some i).
Proof.
  intros url pre m i post Hshape Hlen Hpre Hlast.
  rewrite (getYouTubeID_shape url pre m i post Hshape Hpre Hlast).
  rewrite Hlen. reflexivity.
Qed.

Lemma getYouTubeID_accepts_witness :
  getYouTubeID (lit "https://" ++ lit "youtu.be/" ++ lit "dQw4w9WgXcQ"
                  ++ lit "?t=42")
  = Ok (Some (lit "dQw4w9WgXcQ")) /\
  getYouTubeID (lit "https://www.youtube.com/" ++ lit "embed/"
                  ++ lit "dQw4w9WgXcQ" ++ [])
  = Ok (Some (lit "dQw4w9WgXcQ")) /\
  getYouTubeID (lit "https://www.youtube.com/watch?feature=share"
                  ++ lit "&v=" ++ lit "dQw4w9WgXcQ" ++ lit "#t=1")
  = Ok (Some (lit "dQw4w9WgXcQ")).
Proof.
  split; [|split].
  - apply (getYouTubeID_accepts _ (lit "https://") (lit "youtu.be/")
             (lit "dQw4w9WgXcQ") (lit "?t=42")).
    + repeat split; [apply (marker_short 46%N); reflexivity|].
      repeat constructor.
    + reflexivity.
    + repeat constructor.
    + apply last_marker_at_decide. vm_compute. reflexivity.
  - apply (getYouTubeID_accepts _ (lit "https://www.youtube.com/")
             (lit "embed/") (lit "dQw4w9WgXcQ") []).
    + repeat split; [constructor|]. repeat constructor.
    + reflexivity.
    + repeat constructor.
    + apply last_marker_at_decide. vm_compute. reflexivity.
  - apply (getYouTubeID_accepts _
             (lit "https://www.youtube.com/watch?feature=share")
             (lit "&v=") (lit "dQw4w9WgXcQ") (lit "#t=1")).
    + repeat split; [constructor|]. repeat constructor.
    + reflexivity.
    + repeat constructor.
    + apply last_marker_at_decide. vm_compute. reflexivity.
Defined.

(** C8 as stated fails: a later marker takes the candidate over, and a
    [v=] parameter that comes first in the query is matched by no
    alternative of the pattern. *)
Lemma getYouTubeID_accepts_counterexample :
  ~ (forall url pre m i post,
       shows_candidate url pre m i post -> List.length i = 11 ->
       getYouTubeID url = Ok (Some i)) /\
  getYouTubeID (lit "https://www.youtube.com/?v=dQw4w9WgXcQ") = Ok None.
Proof.
  split; [|vm_compute; reflexivity].
  intros H.
  specialize (H (lit "https://www.youtube.com/watch?v=dQw4w9WgXcQ&v=short")
                (lit "https://www.youtube.com/") (lit "watch?v=")
                (lit "dQw4w9WgXcQ") (lit "&v=short")).
  assert (E : getYouTubeID
                (lit "https://www.youtube.com/watch?v=dQw4w9WgXcQ&v=short")
              = Ok None) by (vm_compute; reflexivity).
  rewrite E in H.
  assert (C : @Ok (option jsstring) None = Ok (Some (lit "dQw4w9WgXcQ"))).
  { apply H; [|reflexivity].
    repeat split; [constructor|]. repeat constructor. }
  discriminate C.
Qed.

(** ** The lookups *)

Lemma fetchWithTimeout_eq h url timeout w :
  fetchWithTimeout h url timeout w
  = (fetch h w url timeout, w ++ [EvFetch url timeout]).
Proof.
  unfold fetchWithTimeout. destruct (fetch h w url timeout); reflexivity.
Qed.

Ltac run_in H :=
  cbv [bind lift throw ret] in H;
  repeat match type of H with
         | context [match ?x with _ => _ end] =>
             destruct x eqn:?; try discriminate
         end;
  repeat match goal with
         | E : fetchWithTimeout _ _ _ _ = _ |- _ =>
             rewrite fetchWithTimeout_eq in E; inversion E; subst; clear E
         end.

(** What a successful attempt of the video lookup returns. *)
Lemma noembed_operation_ok h url w r w' :
  fetchVideoDataFromNoEmbed_operation h url w = (Ok r, w') ->
  exists enc resp body serverTitle videoId thumb,
    encodeURIComponent h url = Ok enc /\
    fetch h w (noembedEndpoint ++ enc) 10000 = Ok resp /\
    w' = w ++ [EvFetch (noembedEndpoint ++ enc) 10000] /\
    ok resp = true /\ json resp = Ok body /\
    getProp body "title" = Ok serverTitle /\
    getYouTubeID url = Ok videoId /\
    (if truthyId videoId then Ok (VStr (thumbnailOf (idText videoId)))
     else getProp body "thumbnail_url") = Ok thumb /\
    r = {| data := {| title := orElse serverTitle (VStr (lit "Untitled"));
                      thumbnailUrl := thumb |};
           success := true; error := None; source := primary |}.
Proof.
  intros H. unfold fetchVideoDataFromNoEmbed_operation in H.
  run_in H.
  inversion H; subst; clear H.
  match goal with E : negb (ok ?a) = false |- _ =>
    apply negb_false_iff in E end.
  do 6 eexists. repeat split; try eassumption; reflexivity.
Qed.

Lemma playlist_operation_ok h url w r w' :
  fetchPlaylistData_operation h url w = (Ok r, w') ->
  success r = true /\ error r = None /\ source r = primary.
Proof.
  intros H. unfold fetchPlaylistData_operation in H.
  run_in H.
  all: inversion H; subst; auto.
Qed.

(** The requests of an attempt go to the endpoint of its lookup. *)
Lemma noembed_operation_requests h url w r w' :
  fetchVideoDataFromNoEmbed_operation h url w = (r, w') ->
  exists evs, w' = w ++ evs /\ Forall (sent_to noembedEndpoint) (requests evs).
Proof.
  intros H. unfold fetchVideoDataFromNoEmbed_operation in H.
  run_in H.
  all: repeat match goal with
         | E : (_, _) = (_, _) |- _ => inversion E; subst; clear E
         end.
  all: first
    [ exists []; rewrite app_nil_r; split; [reflexivity|constructor]
    | eexists [_]; split; [reflexivity|];
      constructor; [eexists; reflexivity|constructor] ].
Qed.

Lemma playlist_operation_requests h url w r w' :
  fetchPlaylistData_operation h url w = (r, w') ->
  exists evs, w' = w ++ evs /\ Forall (sent_to playlistEndpoint) (requests evs).
Proof.
  intros H. unfold fetchPlaylistData_operation in H.
  run_in H.
  all: repeat match goal with
         | E : (_, _) = (_, _) |- _ => inversion E; subst; clear E
         end.
  all: first
    [ exists []; rewrite app_nil_r; split; [reflexivity|constructor]
    | eexists [_]; split; [reflexivity|];
      constructor; [eexists; reflexivity|constructor] ].
Qed.

Lemma requests_app w1 w2 : requests (w1 ++ w2) = requests w1 ++ requests w2.
Proof. unfold requests. apply flat_map_app. Qed.

(** The retrier adds timers only. *)
Lemma retryWithBackoff_requests {A} cfg (operation : M World A) P :
  (forall w r w', operation w = (r, w') ->
     exists evs, w' = w ++ evs /\ Forall P (requests evs)) ->
  forall d retryCount w r w',
    maxRetries cfg - retryCount = d ->
    retryWithBackoff cfg operation retryCount w = (r, w') ->
    exists evs, w' = w ++ evs /\ Forall P (requests evs).
Proof.
  intros Hop. induction d as [|d IH]; intros k w r w' Hd H;
    rewrite retryWithBackoff_step in H;
    destruct (operation w) as [[a|e] w1] eqn:E;
    destruct (Hop _ _ _ E) as (evs1 & -> & H1).
  - inversion H; subst. eauto.
  - destruct (Nat.leb_spec (maxRetries cfg) k); [|lia].
    inversion H; subst. eauto.
  - inversion H; subst. eauto.
  - destruct (Nat.leb_spec (maxRetries cfg) k).
    + inversion H; subst. eauto.
    + apply IH in H; [|lia]. destruct H as (evs2 & -> & H2).
      exists (evs1 ++ [EvDelay (backoffDelay cfg k)] ++ evs2).
      unfold delay, World_Timer. rewrite <- !app_assoc. split; [reflexivity|].
      rewrite !requests_app. cbn. apply Forall_app. auto.
Qed.

(** ** The fallback *)

Lemma extractTitleFromUrl_total url : exists t, extractTitleFromUrl url = Ok t.
Proof.
  unfold extractTitleFromUrl.
  destruct (getYouTubeID_total url) as (v & ->). cbn.
  destruct (truthyId v); [eauto|].
  destruct (getYouTubePlaylistID_total url) as (p & ->). cbn.
  destruct (truthyId p); eauto.
Qed.

(** The title that [extractTitleFromUrl] makes of the two ids. *)
Lemma extractTitleFromUrl_eq url v p :
  getYouTubeID url = Ok v -> getYouTubePlaylistID url = Ok p ->
  extractTitleFromUrl url
  = Ok match v, p with
       | Some i, _ => lit "YouTube Video (" ++ i ++ lit ")"
       | None, Some i => lit "YouTube Playlist (" ++ i ++ lit ")"
       | None, None => lit "YouTube Content"
       end.
Proof.
  intros Hv Hp. unfold extractTitleFromUrl. rewrite Hv. cbn [rbind].
  rewrite (truthyId_video url v Hv).
  destruct v as [i|]; [reflexivity|].
  rewrite Hp. cbn [rbind]. rewrite (truthyId_playlist url p Hp).
  destruct p; reflexivity.
Qed.

(** The catch block of [fetchWithFallback] is never entered. *)
Lemma fetchWithFallback_ok url videoId :
  exists t,
    extractTitleFromUrl url = Ok t /\
    fetchWithFallback url videoId
    = Ok {| data :=
              {| title := VStr t;
                 thumbnailUrl :=
                   VStr (if truthyId videoId then thumbnailOf (idText videoId)
                         else lit "placeholder") |};
            success := true; error := None; source := fallback |}.
Proof.
  destruct (extractTitleFromUrl_total url) as (t & Ht).
  exists t. split; [exact Ht|].
  unfold fetchWithFallback. rewrite Ht. reflexivity.
Qed.

(** ** The resolver *)

Lemma primaryLookup_eq h url v p :
  getYouTubeID url = Ok v -> getYouTubePlaylistID url = Ok p ->
  primaryLookup h url v p
  = match p, v with
    | Some _, None => fetchPlaylistData h url
    | _, _ => fetchVideoDataFromNoEmbed h url
    end.
Proof.
  intros Hv Hp. unfold primaryLookup.
  rewrite (truthyId_video url v Hv), (truthyId_playlist url p Hp).
  destruct p, v; reflexivity.
Qed.

Lemma fetchVideoData_eq h url v p w :
  getYouTubeID url = Ok v -> getYouTubePlaylistID url = Ok p ->
  fetchVideoData h url w
  = tryM (primaryLookup h url v p)
         (fun _ => lift (fetchWithFallback url v)) w.
Proof.
  intros Hv Hp. unfold fetchVideoData, bind, lift. rewrite Hv, Hp.
  reflexivity.
Qed.

Lemma fetchVideoDataFromNoEmbed_primary h url w r w' :
  fetchVideoDataFromNoEmbed h url w = (Ok r, w') ->
  success r = true /\ error r = None /\ source r = primary.
Proof.
  intros H. unfold fetchVideoDataFromNoEmbed in H.
  apply (retryWithBackoff_ok_inv retryConfig _ _ _ 3 0 w eq_refl) in H.
  destruct H as (w0 & H). apply noembed_operation_ok in H.
  destruct H as (? & ? & ? & ? & ? & ? & _ & _ & _ & _ & _ & _ & _ & _ & ->).
  auto.
Qed.

Lemma fetchPlaylistData_primary h url w r w' :
  fetchPlaylistData h url w = (Ok r, w') ->
  success r = true /\ error r = None /\ source r = primary.
Proof.
  intros H. unfold fetchPlaylistData in H.
  apply (retryWithBackoff_ok_inv retryConfig _ _ _ 3 0 w eq_refl) in H.
  destruct H as (w0 & H). apply playlist_operation_ok in H. exact H.
Qed.

Lemma primaryLookup_primary h url v p w r w' :
  primaryLookup h url v p w = (Ok r, w') ->
  success r = true /\ error r = None /\ source r = primary.
Proof.
  unfold primaryLookup.
  destruct (truthyId p && negb (truthyId v));
    [apply fetchPlaylistData_primary|apply fetchVideoDataFromNoEmbed_primary].
Qed.

(** C1. Whatever the host answers, [fetchVideoData] settles to a result:
    either what the playlist or the video lookup returned, tagged
    [primary], or what [fetchWithFallback] made of the url and the video
    id, tagged [fallback]. *)
Theorem fetchVideoData_never_rejects :
  forall (h : Host) (url : jsstring) (w : World),
  exists r w',
    fetchVideoData h url w = (Ok r, w') /\
    ((source r = primary /\
      (fetchPlaylistData h url w = (Ok r, w') \/
       fetchVideoDataFromNoEmbed h url w = (Ok r, w'))) \/
     (source r = fallback /\
      exists videoId,
        getYouTubeID url = Ok videoId /\
        fetchWithFallback url videoId = Ok r)).
Proof.
  intros h url w.
  destruct (getYouTubeID_total url) as (v & Hv).
  destruct (getYouTubePlaylistID_total url) as (p & Hp).
  rewrite (fetchVideoData_eq h url v p w Hv Hp). unfold tryM.
  destruct (primaryLookup h url v p w) as [[r|e] w1] eqn:E.
  - exists r, w1. split; [reflexivity|]. left.
    split; [apply (primaryLookup_primary h url v p w r w1 E)|].
    unfold primaryLookup in E.
    destruct (truthyId p && negb (truthyId v)); auto.
  - destruct (fetchWithFallback_ok url v) as (t & _ & Hf).
    unfold lift. rewrite Hf. eexists _, w1. split; [reflexivity|].
    right. split; [reflexivity|]. exists v. auto.
Qed.

(** C4. The playlist lookup is taken exactly when a playlist id and no
    video id is extracted, the video lookup in every other case; the two
    ids decide, and every request of the resolution goes to the endpoint
    of the lookup chosen. *)
Theorem fetchVideoData_branch :
  forall (h : Host) (url : jsstring),
  exists videoId playlistId,
    getYouTubeID url = Ok videoId /\
    getYouTubePlaylistID url = Ok playlistId /\
    (forall w,
       fetchVideoData h url w
       = tryM (match playlistId, videoId with
               | Some _, None => fetchPlaylistData h url
               | _, _ => fetchVideoDataFromNoEmbed h url
               end)
              (fun _ => lift (fetchWithFallback url videoId)) w) /\
    (forall w,
       exists evs,
         snd (fetchVideoData h url w) = w ++ evs /\
         Forall (sent_to (match playlistId, videoId with
                          | Some _, None => playlistEndpoint
                          | _, _ => noembedEndpoint
                          end))
                (requests evs)).
Proof.
  intros h url.
  destruct (getYouTubeID_total url) as (v & Hv).
  destruct (getYouTubePlaylistID_total url) as (p & Hp).
  exists v, p. split; [exact Hv|]. split; [exact Hp|].
  assert (Heq : forall w,
    fetchVideoData h url w
    = tryM (match p, v with
            | Some _, None => fetchPlaylistData h url
            | _, _ => fetchVideoDataFromNoEmbed h url
            end)
           (fun _ => lift (fetchWithFallback url v)) w).
  { intros w. rewrite (fetchVideoData_eq h url v p w Hv Hp).
    rewrite (primaryLookup_eq h url v p Hv Hp). reflexivity. }
  split; [exact Heq|].
  intros w. rewrite Heq. unfold tryM, lift.
  assert (Hgrow : forall r w',
    match p, v with
    | Some _, None => fetchPlaylistData h url
    | _, _ => fetchVideoDataFromNoEmbed h url
    end w = (r, w') ->
    exists evs, w' = w ++ evs /\
      Forall (sent_to (match p, v with
                       | Some _, None => playlistEndpoint
                       | _, _ => noembedEndpoint
                       end)) (requests evs)).
  { intros r w' E.
    destruct p as [i|], v as [j|].
    2: apply (retryWithBackoff_requests retryConfig
                (fetchPlaylistData_operation h url) _
                (playlist_operation_requests h url) 3 0 w r w' eq_refl E).
    all: apply (retryWithBackoff_requests retryConfig
                  (fetchVideoDataFromNoEmbed_operation h url) _
                  (noembed_operation_requests h url) 3 0 w r w' eq_refl E). }
  destruct (Hgrow _ _ (surjective_pairing _)) as (evs & Hw & Hsent).
  exists evs. split; [|exact Hsent].
  rewrite <- Hw.
  destruct (match p, v with
            | Some _, None => fetchPlaylistData h url
            | _, _ => fetchVideoDataFromNoEmbed h url
            end w) as [[r|e] w1]; reflexivity.
Qed.

(** C5. When the lookup chosen fails after its retries, [fetchVideoData]
    returns a [fallback] result with [success = true]: the title is made of
    the video id if there is one, else of the playlist id if there is one,
    else it is the generic label; the thumbnail is the canonical address
    of the video id, or the sentinel when there is none. *)
Theorem fetchVideoData_fallback :
  forall (h : Host) (url : jsstring) (videoId playlistId : option jsstring)
         (w w' : World) (e : exn),
    getYouTubeID url = Ok videoId ->
    getYouTubePlaylistID url = Ok playlistId ->
    primaryLookup h url videoId playlistId w = (Throw e, w') ->
    exists r,
      fetchVideoData h url w = (Ok r, w') /\
      success r = true /\
      source r = fallback /\
      title (data r)
      = VStr match videoId, playlistId with
             | Some i, _ => lit "YouTube Video (" ++ i ++ lit ")"
             | None, Some i => lit "YouTube Playlist (" ++ i ++ lit ")"
             | None, None => lit "YouTube Content"
             end /\
      thumbnailUrl (data r)
      = VStr match videoId with
             | Some i =>
                 lit "https://img.youtube.com/vi/" ++ i ++ lit "/mqdefault.jpg"
             | None => lit "placeholder"
             end.
Proof.
  intros h url v p w w' e Hv Hp E.
  rewrite (fetchVideoData_eq h url v p w Hv Hp). unfold tryM, lift.
  rewrite E.
  destruct (fetchWithFallback_ok url v) as (t & Ht & Hf). rewrite Hf.
  eexists. split; [reflexivity|]. cbn.
  rewrite (extractTitleFromUrl_eq url v p Hv Hp) in Ht.
  inversion Ht; subst t.
  rewrite (truthyId_video url v Hv).
  repeat split. destruct v; reflexivity.
Qed.

Lemma fetchVideoData_fallback_witness :
  (exists r,
     fetchVideoData offline
       (lit "https://www.youtube.com/watch?v=dQw4w9WgXcQ") []
     = (Ok r,
        [EvFetch (noembedEndpoint
                    ++ lit "https://www.youtube.com/watch?v=dQw4w9WgXcQ")
           10000; EvDelay 1000;
         EvFetch (noembedEndpoint
                    ++ lit "https://www.youtube.com/watch?v=dQw4w9WgXcQ")
           10000; EvDelay 2000;
         EvFetch (noembedEndpoint
                    ++ lit "https://www.youtube.com/watch?v=dQw4w9WgXcQ")
           10000; EvDelay 4000;
         EvFetch (noembedEndpoint
                    ++ lit "https://www.youtube.com/watch?v=dQw4w9WgXcQ")
           10000]) /\
     success r = true /\
     source r = fallback /\
     title (data r)
     = VStr (lit "YouTube Video (" ++ lit "dQw4w9WgXcQ" ++ lit ")") /\
     thumbnailUrl (data r)
     = VStr (lit "https://img.youtube.com/vi/" ++ lit "dQw4w9WgXcQ"
               ++ lit "/mqdefault.jpg")).
Proof.
  apply (fetchVideoData_fallback offline
           (lit "https://www.youtube.com/watch?v=dQw4w9WgXcQ")
           (Some (lit "dQw4w9WgXcQ")) None [] _ (FetchRejected 0)).
  - vm_compute. reflexivity.
  - vm_compute. reflexivity.
  - vm_compute. reflexivity.
Defined.

(** C6, as the code has it.  A successful video lookup returns what the
    last response carried: the thumbnail is the canonical address of the
    video id when the url has one, whatever the body says, and the
    [thumbnail_url] of the body only when it has none; the title is the
    [title] of the body when that is truthy, and ["Untitled"] when it is
    absent or falsy. *)
Theorem fetchVideoDataFromNoEmbed_result :
  forall (h : Host) (url : jsstring) (w w' : World) (r : ApiResponse),
    fetchVideoDataFromNoEmbed h url w = (Ok r, w') ->
    exists w0 enc resp body serverTitle,
      encodeURIComponent h url = Ok enc /\
      fetch h w0 (noembedEndpoint ++ enc) 10000 = Ok resp /\
      w' = w0 ++ [EvFetch (noembedEndpoint ++ enc) 10000] /\
      ok resp = true /\
      json resp = Ok body /\
      getProp body "title" = Ok serverTitle /\
      success r = true /\
      source r = primary /\
      title (data r)
      = (if truthy serverTitle then serverTitle else VStr (lit "Untitled")) /\
      (serverTitle = VUndefined -> title (data r) = VStr (lit "Untitled")) /\
      (forall i,
         getYouTubeID url = Ok (Some i) ->
         thumbnailUrl (data r)
         = VStr (lit "https://img.youtube.com/vi/" ++ i
                   ++ lit "/mqdefault.jpg")) /\
      (getYouTubeID url = Ok None ->
       getProp body "thumbnail_url" = Ok (thumbnailUrl (data r))).
Proof.
  intros h url w w' r H. unfold fetchVideoDataFromNoEmbed in H.
  apply (retryWithBackoff_ok_inv retryConfig _ _ _ 3 0 w eq_refl) in H.
  destruct H as (w0 & H). apply noembed_operation_ok in H.
  destruct H as (enc & resp & body & serverTitle & v & thumb
                 & Henc & Hfetch & Hw & Hok & Hjson & Htitle & Hv & Hthumb
                 & ->).
  exists w0, enc, resp, body, serverTitle. cbn.
  repeat split; try assumption.
  - intros ->. reflexivity.
  - intros i Hi. rewrite Hi in Hv. inversion Hv; subst v.
    rewrite (truthyId_video url (Some i) Hi) in Hthumb.
    inversion Hthumb. reflexivity.
  - intros Hn. rewrite Hn in Hv. inversion Hv; subst v. exact Hthumb.
Qed.

Lemma fetchVideoDataFromNoEmbed_result_witness :
  exists r w',
    fetchVideoDataFromNoEmbed
      (answering (VObj [(lit "title", VStr (lit "Test Video"));
                        (lit "thumbnail_url",
                         VStr (lit "https://example.com/thumb.jpg"))]))
      (lit "https://www.youtube.com/watch?v=dQw4w9WgXcQ") []
    = (Ok r, w') /\
    title (data r) = VStr (lit "Test Video") /\
    thumbnailUrl (data r)
    = VStr (lit "https://img.youtube.com/vi/" ++ lit "dQw4w9WgXcQ"
              ++ lit "/mqdefault.jpg").
Proof.
  eexists. eexists. split; [vm_compute; reflexivity|].
  destruct (fetchVideoDataFromNoEmbed_result
    (answering (VObj [(lit "title", VStr (lit "Test Video"));
                      (lit "thumbnail_url",
                       VStr (lit "https://example.com/thumb.jpg"))]))
    (lit "https://www.youtube.com/watch?v=dQw4w9WgXcQ") [] _ _
    ltac:(vm_compute; reflexivity))
    as (w0 & enc & resp & body & serverTitle & _ & _ & _ & _ & _ & _
        & _ & _ & _ & _ & Hthumb & _).
  split; [reflexivity|].
  apply Hthumb. vm_compute. reflexivity.
Defined.

(** C6 as stated fails on a title that is present and empty: the body
    carries the empty string as [title], and the result says
    ["Untitled"]. *)
Lemma fetchVideoDataFromNoEmbed_result_counterexample :
  exists r w',
    fetchVideoDataFromNoEmbed
      (answering (VObj [(lit "title", VStr [])]))
      (lit "https://www.youtube.com/watch?v=dQw4w9WgXcQ") []
    = (Ok r, w') /\
    getProp (VObj [(lit "title", VStr [])]) "title" = Ok (VStr []) /\
    title (data r) = VStr (lit "Untitled") /\
    title (data r) <> VStr [].
Proof.
  eexists. eexists. split; [vm_compute; reflexivity|].
  split; [reflexivity|]. split; [reflexivity|]. discriminate.
Qed.

(** C9. The catch block of [fetchWithFallback] is dead: the title is made
    without a throw whatever the url, so whatever [fetchVideoData] returns
    has [success = true] and no [error]. *)
Theorem fetchVideoData_success :
  (forall url, exists t, extractTitleFromUrl url = Ok t) /\
  (forall url videoId,
     exists r,
       fetchWithFallback url videoId = Ok r /\
       success r = true /\ error r = None) /\
  (forall (h : Host) (url : jsstring) (w : World),
     exists r w',
       fetchVideoData h url w = (Ok r, w') /\
       success r = true /\ error r = None).
Proof.
  split; [exact extractTitleFromUrl_total|]. split.
  - intros url v. destruct (fetchWithFallback_ok url v) as (t & _ & Hf).
    rewrite Hf. eexists. split; [reflexivity|]. auto.
  - intros h url w.
    destruct (getYouTubeID_total url) as (v & Hv).
    destruct (getYouTubePlaylistID_total url) as (p & Hp).
    rewrite (fetchVideoData_eq h url v p w Hv Hp). unfold tryM.
    destruct (primaryLookup h url v p w) as [[r|e] w1] eqn:E.
    + exists r, w1. split; [reflexivity|].
      destruct (primaryLookup_primary h url v p w r w1 E) as (? & ? & _).
      auto.
    + destruct (fetchWithFallback_ok url v) as (t & _ & Hf).
      unfold lift. rewrite Hf. eexists _, w1. split; [reflexivity|]. auto.
Qed.

(** ** The health probe *)

(** C10. Each flag of [checkApiHealth] says whether the request of its own
    probe was fulfilled: a response counts whatever its status (a 500
    reports healthy), only a rejection gives [false], and the outcome of
    one probe does not enter the flag of the other. *)
Theorem checkApiHealth_flags :
  (forall (h : Host) (w : World),
     checkApiHealth h w
     = (Ok {| noembed := fulfilled (fetch h w noembedProbe 5000);
              youtubemultidownloader :=
                fulfilled (fetch h (w ++ [EvFetch noembedProbe 5000])
                             playlistProbe 5000) |},
        w ++ [EvFetch noembedProbe 5000; EvFetch playlistProbe 5000])) /\
  (forall resp : Response, fulfilled (Ok resp) = true) /\
  (forall r : Result Response,
     fulfilled r = false <-> exists e, r = Throw e) /\
  fst (checkApiHealth (answeringStatus 500) [])
  = Ok {| noembed := true; youtubemultidownloader := true |} /\
  fst (checkApiHealth (reaching playlistEndpoint 200) [])
  = Ok {| noembed := false; youtubemultidownloader := true |} /\
  fst (checkApiHealth (reaching noembedEndpoint 500) [])
  = Ok {| noembed := true; youtubemultidownloader := false |}.
Proof.
  split; [|split; [|split; [|split; [|split]]]].
  - intros h w. unfold checkApiHealth.
    rewrite !fetchWithTimeout_eq, <- app_assoc. reflexivity.
  - reflexivity.
  - intros r. destruct r; cbn; split; try discriminate; eauto.
    intros (e' & H). discriminate.
  - vm_compute. reflexivity.
  - vm_compute. reflexivity.
  - vm_compute. reflexivity.
Qed.

(** ** The cases of the test suite *)

Example test_video_success :
  fst (fetchVideoData
         (answering (VObj [(lit "title", VStr (lit "Test Video"));
                           (lit "thumbnail_url",
                            VStr (lit "https://example.com/thumb.jpg"))]))
         (lit "https://www.youtube.com/watch?v=dQw4w9WgXcQ") [])
  = Ok {| data :=
            {| title := VStr (lit "Test Video");
               thumbnailUrl :=
                 VStr (lit "https://img.youtube.com/vi/dQw4w9WgXcQ/mqdefault.jpg")
            |};
          success := true; error := None; source := primary |}.
Proof. vm_compute. reflexivity. Qed.

Example test_playlist_success :
  fst (fetchVideoData
         (answering
            (VObj [(lit "playlist_info",
                    VObj [(lit "title", VStr (lit "Test Playlist"));
                          (lit "items",
                           VArr [VObj [(lit "thumbnail",
                                        VStr (lit "https://example.com/thumb1.jpg"))]])])]))
         (lit "https://www.youtube.com/playlist?list=PLrAXtmRdnEQy6nuLMOV7V4r4s_nloyEfR")
         [])
  = Ok {| data :=
            {| title := VStr (lit "Test Playlist");
               thumbnailUrl := VStr (lit "https://example.com/thumb1.jpg") |};
          success := true; error := None; source := primary |}.
Proof. vm_compute. reflexivity. Qed.

Example test_playlist_fallback :
  fst (fetchVideoData offline
         (lit "https://www.youtube.com/playlist?list=PLrAXtmRdnEQy6nuLMOV7V4r4s_nloyEfR")
         [])
  = Ok {| data :=
            {| title :=
                 VStr (lit "YouTube Playlist (PLrAXtmRdnEQy6nuLMOV7V4r4s_nloyEfR)");
               thumbnailUrl := VStr (lit "placeholder") |};
          success := true; error := None; source := fallback |}.
Proof. vm_compute. reflexivity. Qed.

Example test_retries_then_success :
  let run := fetchVideoData
               (recovering 2 (VObj [(lit "title", VStr (lit "Test Video"))]))
               (lit "https://www.youtube.com/watch?v=dQw4w9WgXcQ") [] in
  List.length (requests (snd run)) = 3 /\
  match fst run with
  | Ok r => success r = true /\ source r = primary
  | Throw _ => False
  end.
Proof. vm_compute. auto. Qed.

Example test_no_id_fallback :
  fst (fetchVideoData offline (lit "not a url") [])
  = Ok {| data := {| title := VStr (lit "YouTube Content");
                     thumbnailUrl := VStr (lit "placeholder") |};
          success := true; error := None; source := fallback |}.
Proof. vm_compute. reflexivity. Qed.

(* ===================================================================== *)
(** * Further properties *)
(* ===================================================================== *)

(** ** More on the matcher *)

Lemma star_greedy_none_inv p k cs :
  forall s n,
    star_greedy p n s cs k = None ->
    forall pre suf, s = pre ++ suf -> Forall (fun c => p c = true) pre ->
      k (MState (n + List.length pre) suf cs) = None.
Proof.
  induction s as [|c s IH]; intros n H pre suf E Hpre; simpl in H.
  - destruct pre; [|discriminate]. simpl in *. subst suf.
    rewrite Nat.add_0_r. exact H.
  - destruct pre as [|c' pre]; simpl in *.
    + subst suf. rewrite Nat.add_0_r.
      destruct (p c); [|exact H].
      destruct (star_greedy p (S n) s cs k); [discriminate|exact H].
    + inversion E; subst c' s. inversion Hpre as [|? ? Hc Hpre']; subst.
      rewrite Hc in H.
      destruct (star_greedy p (S n) (pre ++ suf) cs k) eqn:E1;
        [discriminate|].
      rewrite <- Nat.add_succ_comm. apply (IH (S n) E1 pre suf eq_refl Hpre').
Qed.

Lemma star_greedy_none p k cs :
  forall s n,
    (forall pre suf, s = pre ++ suf -> Forall (fun c => p c = true) pre ->
       k (MState (n + List.length pre) suf cs) = None) ->
    star_greedy p n s cs k = None.
Proof.
  induction s as [|c s IH]; intros n H; simpl.
  - specialize (H [] [] eq_refl (Forall_nil _)). simpl in H.
    rewrite Nat.add_0_r in H. exact H.
  - assert (H0 : k (MState n (c :: s) cs) = None).
    { specialize (H [] (c :: s) eq_refl (Forall_nil _)). simpl in H.
      rewrite Nat.add_0_r in H. exact H. }
    destruct (p c) eqn:Hc; [|exact H0].
    rewrite IH; [exact H0|].
    intros pre suf E Hpre. specialize (H (c :: pre) suf).
    simpl in H. rewrite <- Nat.add_succ_comm in H. apply H.
    + rewrite E. reflexivity.
    + constructor; assumption.
Qed.

(** Where a star that succeeded handed over: after a run of the class,
    at the last index at which the continuation succeeds. *)
Lemma star_greedy_inv p k cs r :
  forall s n,
    star_greedy p n s cs k = Some r ->
    exists pre suf,
      s = pre ++ suf /\
      Forall (fun c => p c = true) pre /\
      k (MState (n + List.length pre) suf cs) = Some r /\
      (forall pre' suf', suf = pre' ++ suf' -> pre' <> [] ->
         Forall (fun c => p c = true) pre' ->
         k (MState (n + List.length pre + List.length pre') suf' cs) = None).
Proof.
  induction s as [|c s IH]; intros n H; simpl in H.
  - exists [], []. simpl. rewrite Nat.add_0_r.
    repeat split; [constructor|exact H|].
    intros pre' suf' E Hne _. destruct pre'; [congruence|discriminate].
  - destruct (p c) eqn:Hc.
    + destruct (star_greedy p (S n) s cs k) as [r'|] eqn:E1.
      * inversion H; subst r'.
        destruct (IH (S n) E1) as (pre & suf & -> & Hpre & Hk & Hlater).
        exists (c :: pre), suf. simpl. rewrite <- Nat.add_succ_comm.
        repeat split; [constructor; assumption|exact Hk|exact Hlater].
      * exists [], (c :: s). simpl. rewrite Nat.add_0_r.
        repeat split; [constructor|exact H|].
        intros pre' suf' E Hne Hp.
        destruct pre' as [|c' pre']; [congruence|].
        simpl in E. inversion E; subst c' s.
        inversion Hp as [|? ? _ Hp']; subst.
        simpl. rewrite <- Nat.add_succ_comm.
        apply (star_greedy_none_inv p k cs _ (S n) E1 pre' suf' eq_refl Hp').
    + exists [], (c :: s). simpl. rewrite Nat.add_0_r.
      repeat split; [constructor|exact H|].
      intros pre' suf' E Hne Hp.
      destruct pre' as [|c' pre']; [congruence|].
      simpl in E. inversion E; subst c'.
      inversion Hp as [|? ? Hc' _]; subst. congruence.
Qed.

(** [exec_from] answers the match at the first index that has one. *)
Lemma exec_from_first r x :
  forall s n,
    exec_from r n s = Some x ->
    exists pre suf,
      s = pre ++ suf /\
      rmatch r (MState (n + List.length pre) suf []) Some = Some x /\
      (forall pre' suf',
         s = pre' ++ suf' -> List.length pre' < List.length pre ->
         rmatch r (MState (n + List.length pre') suf' []) Some = None).
Proof.
  induction s as [|c s IH]; intros n H; simpl in H.
  - destruct (rmatch r (MState n [] []) Some) eqn:E; [|discriminate].
    inversion H; subst. exists [], []. simpl. rewrite Nat.add_0_r.
    repeat split; [exact E|]. intros; lia.
  - destruct (rmatch r (MState n (c :: s) []) Some) eqn:E.
    + inversion H; subst. exists [], (c :: s). simpl. rewrite Nat.add_0_r.
      repeat split; [exact E|]. intros; lia.
    + destruct (IH (S n) H) as (pre & suf & -> & Hm & Hearlier).
      exists (c :: pre), suf. simpl. rewrite <- Nat.add_succ_comm.
      repeat split; [exact Hm|].
      intros pre' suf' E' Hlt. destruct pre' as [|c' pre'].
      * simpl in *. subst suf'. rewrite Nat.add_0_r. exact E.
      * simpl in *. inversion E'; subst c'.
        rewrite <- Nat.add_succ_comm. apply Hearlier; [assumption|lia].
Qed.

Lemma exec_from_none r :
  forall s n,
    (forall pre suf, s = pre ++ suf ->
       rmatch r (MState (n + List.length pre) suf []) Some = None) ->
    exec_from r n s = None.
Proof.
  induction s as [|c s IH]; intros n H; simpl.
  - specialize (H [] [] eq_refl). simpl in H. rewrite Nat.add_0_r in H.
    rewrite H. reflexivity.
  - pose proof (H [] (c :: s) eq_refl) as H0. simpl in H0.
    rewrite Nat.add_0_r in H0. rewrite H0.
    apply IH. intros pre suf E. specialize (H (c :: pre) suf).
    simpl in H. rewrite <- Nat.add_succ_comm in H. apply H.
    rewrite E. reflexivity.
Qed.

Lemma exec_from_at r x :
  forall pre suf n,
    rmatch r (MState (n + List.length pre) suf []) Some = Some x ->
    (forall pre' suf',
       pre ++ suf = pre' ++ suf' -> List.length pre' < List.length pre ->
       rmatch r (MState (n + List.length pre') suf' []) Some = None) ->
    exec_from r n (pre ++ suf) = Some x.
Proof.
  induction pre as [|c pre IH]; intros suf n Hm Hearlier; simpl in *.
  - rewrite Nat.add_0_r in Hm. apply exec_from_head. exact Hm.
  - pose proof (Hearlier [] (c :: pre ++ suf) eq_refl ltac:(simpl; lia))
      as H0.
    simpl in H0. rewrite Nat.add_0_r in H0. rewrite H0.
    apply IH.
    + rewrite <- Nat.add_succ_comm in Hm. exact Hm.
    + intros pre' suf' E Hlt.
      specialize (Hearlier (c :: pre') suf'). simpl in Hearlier.
      rewrite <- Nat.add_succ_comm in Hearlier. apply Hearlier; [|lia].
      rewrite E. reflexivity.
Qed.

Lemma take_while_split p s : s = take_while p s ++ drop_while p s.
Proof.
  induction s as [|c s IH]; simpl; [reflexivity|].
  destruct (p c); simpl; [f_equal; exact IH|reflexivity].
Qed.

Lemma take_while_all p s : Forall (fun c => p c = true) (take_while p s).
Proof.
  induction s as [|c s IH]; simpl; [constructor|].
  destruct (p c) eqn:E; constructor; assumption.
Qed.

Lemma drop_while_head p s :
  match drop_while p s with [] => True | c :: _ => p c = false end.
Proof.
  induction s as [|c s IH]; simpl; [exact I|].
  destruct (p c) eqn:E; [exact IH|exact E].
Qed.

Lemma firstn_take_while p s :
  firstn (List.length (take_while p s)) s = take_while p s.
Proof.
  induction s as [|c s IH]; simpl; [reflexivity|].
  destruct (p c); simpl; [f_equal; exact IH|reflexivity].
Qed.

(** ** The video id extractor, both ways *)

Lemma marker_with_class_dec (l1 l2 : jsstring) (p : cu -> bool) s :
  (exists c t, s = l1 ++ c :: l2 ++ t /\ p c = true) \/
  ~ (exists c t, s = l1 ++ c :: l2 ++ t /\ p c = true).
Proof.
  destruct (strip_prefix l1 s) as [s1|] eqn:E1.
  - apply strip_prefix_inv in E1. subst s.
    destruct s1 as [|c s2].
    { right. intros (c & t & E & _). apply app_inv_head in E. discriminate. }
    destruct (p c) eqn:Hc.
    2:{ right. intros (c' & t & E & Hc'). apply app_inv_head in E.
        inversion E; subst. congruence. }
    destruct (strip_prefix l2 s2) as [s3|] eqn:E2.
    + apply strip_prefix_inv in E2. subst s2. left. eauto.
    + right. intros (c' & t & E & Hc'). apply app_inv_head in E.
      inversion E; subst. rewrite strip_prefix_app in E2. discriminate.
  - right. intros (c & t & -> & _). rewrite strip_prefix_app in E1.
    discriminate.
Qed.

Lemma starts_with_marker_dec s :
  starts_with_marker s \/ ~ starts_with_marker s.
Proof.
  destruct (strip_prefix (lit "v/") s) as [t|] eqn:Ev.
  { apply strip_prefix_inv in Ev. left. exists (lit "v/"), t.
    split; [constructor|assumption]. }
  destruct (strip_prefix (lit "embed/") s) as [t|] eqn:Ee.
  { apply strip_prefix_inv in Ee. left. exists (lit "embed/"), t.
    split; [constructor|assumption]. }
  destruct (strip_prefix (lit "watch?v=") s) as [t|] eqn:Ew.
  { apply strip_prefix_inv in Ew. left. exists (lit "watch?v="), t.
    split; [constructor|assumption]. }
  destruct (strip_prefix (lit "&v=") s) as [t|] eqn:Ea.
  { apply strip_prefix_inv in Ea. left. exists (lit "&v="), t.
    split; [constructor|assumption]. }
  destruct (marker_with_class_dec (lit "youtu") (lit "be/") dot s)
    as [(c & t & -> & Hc)|Hy].
  { left. exists (lit "youtu" ++ [c] ++ lit "be/"), t.
    split; [now constructor|reflexivity]. }
  destruct (marker_with_class_dec (lit "u/") (lit "/") wordChar s)
    as [(c & t & -> & Hc)|Hu].
  { left. exists (lit "u/" ++ [c] ++ lit "/"), t.
    split; [now constructor|reflexivity]. }
  right. intros (m & s' & Hm & ->). destruct Hm.
  - apply Hy. exists c, s'. split; [reflexivity|assumption].
  - rewrite strip_prefix_app in Ev. discriminate.
  - apply Hu. exists c, s'. split; [reflexivity|assumption].
  - rewrite strip_prefix_app in Ee. discriminate.
  - rewrite strip_prefix_app in Ew. discriminate.
  - rewrite strip_prefix_app in Ea. discriminate.
Qed.

Lemma videoMarkers_inv s n cs k r :
  rmatch videoMarkers (MState n s cs) k = Some r ->
  exists m s',
    marker m /\ s = m ++ s' /\ k (MState (n + List.length m) s' cs) = Some r.
Proof.
  intros H. destruct (starts_with_marker_dec s) as [(m & s' & Hm & ->)|Hno].
  - rewrite videoMarkers_match in H by assumption. eauto.
  - rewrite videoMarkers_fail in H by assumption. discriminate.
Qed.

(** What the rest of the video pattern captures at a marker. *)
Lemma video_tail_at n m s cs :
  marker m ->
  exists n' s',
    rmatch (Cat (Group 1 videoMarkers)
              (Cat (Group 2 (Star (noneOf "#&?"))) (Star dot)))
      (MState n (m ++ s) cs) Some
    = Some (MState n' s'
              ((2, take_while (noneOf "#&?") s) :: (1, m) :: cs)).
Proof.
  intros Hm.
  replace (m ++ s)
    with (m ++ take_while (noneOf "#&?") s ++ drop_while (noneOf "#&?") s)
    by (rewrite <- take_while_split; reflexivity).
  apply video_tail_match; [exact Hm|apply take_while_all|].
  pose proof (drop_while_head (noneOf "#&?") s) as H.
  destruct (drop_while (noneOf "#&?") s) as [|c t]; [exact I|].
  simpl. unfold noneOf in H. apply negb_false_iff in H. exact H.
Qed.

Lemma video_tail_inv n s cs r :
  rmatch (Cat (Group 1 videoMarkers)
            (Cat (Group 2 (Star (noneOf "#&?"))) (Star dot)))
    (MState n s cs) Some = Some r ->
  exists m s',
    marker m /\ s = m ++ s' /\
    caps r = (2, take_while (noneOf "#&?") s') :: (1, m) :: cs.
Proof.
  intros H. destruct (starts_with_marker_dec s) as [(m & s' & Hm & ->)|Hno].
  - destruct (video_tail_at n m s' cs Hm) as (n' & t & E).
    rewrite E in H. inversion H; subst. exists m, s'. auto.
  - rewrite video_tail_fail in H by assumption. discriminate.
Qed.

Lemma exec_from_bol r s :
  forall n, 0 < n -> exec_from (Cat Bol r) n s = None.
Proof.
  induction s as [|c s IH]; intros n Hn; simpl;
    destruct n; try lia; simpl; [reflexivity|].
  apply IH. lia.
Qed.

Lemma exec_videoRegExp url :
  exec videoRegExp url
  = star_greedy dot 0 url []
      (fun st => rmatch (Cat (Group 1 videoMarkers)
         (Cat (Group 2 (Star (noneOf "#&?"))) (Star dot))) st Some).
Proof.
  unfold exec.
  change (star_greedy dot 0 url []
      (fun st => rmatch (Cat (Group 1 videoMarkers)
         (Cat (Group 2 (Star (noneOf "#&?"))) (Star dot))) st Some))
    with (rmatch videoRegExp (MState 0 url []) Some).
  destruct (rmatch videoRegExp (MState 0 url []) Some) as [x|] eqn:E.
  - apply exec_from_head. exact E.
  - destruct url as [|c url]; cbn [exec_from]; rewrite E; [reflexivity|].
    apply (exec_from_bol _ url 1). lia.
Qed.

(** X1. A url on whose first line no marker of the pattern starts has no
    video id: [getYouTubeID] answers null. *)
Theorem getYouTubeID_no_marker :
  forall url : jsstring,
    (forall pre suf,
       url = pre ++ suf -> Forall (fun c => dot c = true) pre ->
       ~ starts_with_marker suf) ->
    getYouTubeID url = Ok None.
Proof.
  intros url Hno. unfold getYouTubeID. rewrite exec_videoRegExp.
  rewrite star_greedy_none; [reflexivity|].
  intros pre suf E Hpre. apply video_tail_fail. apply (Hno pre suf E Hpre).
Qed.

Lemma getYouTubeID_no_marker_witness :
  getYouTubeID (lit "https://vimeo.com/76979871?share=copy") = Ok None /\
  getYouTubeID [] = Ok None.
Proof.
  split; apply getYouTubeID_no_marker; intros pre suf E Hpre.
  - apply (marker_later_sound 0
             (lit "https://vimeo.com/76979871?share=copy") 1
             ltac:(vm_compute; reflexivity) pre suf E); [lia|exact Hpre].
  - apply (marker_later_sound 0 [] 1 ltac:(vm_compute; reflexivity)
             pre suf E); [lia|exact Hpre].
Defined.

(** X2. An id that [getYouTubeID] returns stands in the url: right after
    the last marker of the first line, 11 code units long, free of [#],
    [&] and [?], and followed by one of these or by the end of the url. *)
Theorem getYouTubeID_sound :
  forall (url i : jsstring),
    getYouTubeID url = Ok (Some i) ->
    exists pre m post,
      shows_candidate url pre m i post /\
      List.length i = 11 /\
      Forall (fun c => dot c = true) pre /\
      last_marker_at url (List.length pre).
Proof.
  intros url i H.
  pose proof (getYouTubeID_length url i H) as Hlen.
  unfold getYouTubeID in H. rewrite exec_videoRegExp in H.
  destruct (star_greedy _ _ _ _ _) as [x|] eqn:E; [|discriminate].
  apply star_greedy_inv in E.
  destruct E as (pre & suf & Hurl & Hpre & Hk & Hlater).
  apply video_tail_inv in Hk. destruct Hk as (m & s' & Hm & -> & Hcaps).
  rewrite Hcaps in H. cbn [group Nat.eqb] in H.
  destruct (Nat.eqb _ 11); [|discriminate]. inversion H; subst i.
  exists pre, m, (drop_while (noneOf "#&?") s').
  repeat split.
  - rewrite <- take_while_split. exact Hurl.
  - exact Hm.
  - apply take_while_all.
  - pose proof (drop_while_head (noneOf "#&?") s') as Hd.
    destruct (drop_while (noneOf "#&?") s') as [|c t]; [exact I|].
    simpl. unfold noneOf in Hd. apply negb_false_iff in Hd. exact Hd.
  - exact Hlen.
  - exact Hpre.
  - intros pre' suf' E' Hlt Hdot Hmk.
    assert (Hsplit : exists p2, pre' = pre ++ p2 /\ p2 <> []).
    { exists (skipn (List.length pre) pre').
      assert (Hf : firstn (List.length pre) pre' = pre).
      { apply (f_equal (firstn (List.length pre))) in E'.
        rewrite Hurl in E'.
        rewrite firstn_app, firstn_all, Nat.sub_diag in E'. simpl in E'.
        rewrite app_nil_r in E'.
        rewrite firstn_app in E'.
        replace (List.length pre - List.length pre') with 0 in E' by lia.
        simpl in E'. rewrite app_nil_r in E'. symmetry. exact E'. }
      split.
      - rewrite <- Hf at 1. symmetry. apply firstn_skipn.
      - intros Hnil. apply (f_equal (@List.length cu)) in Hnil.
        rewrite length_skipn in Hnil. simpl in Hnil. lia. }
    destruct Hsplit as (p2 & -> & Hne).
    apply Forall_app in Hdot. destruct Hdot as [_ Hdot2].
    rewrite Hurl, <- app_assoc in E'. apply app_inv_head in E'.
    specialize (Hlater p2 suf' E' Hne Hdot2).
    destruct Hmk as (m' & t & Hm' & ->).
    destruct (video_tail_at (0 + List.length pre + List.length p2) m' t []
                Hm') as (n' & t' & E2).
    rewrite E2 in Hlater. discriminate.
Qed.

Lemma getYouTubeID_sound_witness :
  exists pre m post,
    shows_candidate (lit "https://www.youtube.com/watch?v=dQw4w9WgXcQ&t=42s")
      pre m (lit "dQw4w9WgXcQ") post /\
    List.length (lit "dQw4w9WgXcQ") = 11 /\
    Forall (fun c => dot c = true) pre /\
    last_marker_at (lit "https://www.youtube.com/watch?v=dQw4w9WgXcQ&t=42s")
      (List.length pre).
Proof.
  apply (getYouTubeID_sound
           (lit "https://www.youtube.com/watch?v=dQw4w9WgXcQ&t=42s")
           (lit "dQw4w9WgXcQ")).
  vm_compute. reflexivity.
Defined.

(** ** The playlist id extractor, both ways *)

Lemma playlist_match_at n c d s' :
  oneOf "?&" c = true -> noneOf "#&?" d = true ->
  exists n' t,
    rmatch playlistRegExp (MState n (c :: lit "list=" ++ d :: s') []) Some
    = Some (MState n' t [(1, d :: take_while (noneOf "#&?") s')]).
Proof.
  intros Hc Hd. unfold playlistRegExp. cbn [rmatch pos rest caps].
  rewrite Hc, strip_prefix_app. cbn [pos rest caps]. rewrite Hd.
  cbn [pos rest caps]. rewrite star_greedy_total by discriminate.
  do 2 eexists. do 3 f_equal.
  match goal with
  | |- context [firstn ?j (d :: s')] =>
      replace j with (S (List.length (take_while (noneOf "#&?") s')))
  end.
  - cbn [firstn]. rewrite firstn_take_while. reflexivity.
  - cbn [pos]. lia.
Qed.

Lemma playlist_here_dec s : playlist_here s \/ ~ playlist_here s.
Proof.
  destruct s as [|c s0].
  { right. intros (c & d & s' & E & _). discriminate. }
  destruct (oneOf "?&" c) eqn:Hc.
  2:{ right. intros (c' & d & s' & E & Hc' & _).
      assert (c = c') by congruence. subst. congruence. }
  destruct (strip_prefix (lit "list=") s0) as [s1|] eqn:E1.
  2:{ right. intros (c' & d & s' & E & _).
      assert (Es : s0 = lit "list=" ++ d :: s') by congruence. subst s0.
      rewrite strip_prefix_app in E1. discriminate. }
  apply strip_prefix_inv in E1. subst s0.
  destruct s1 as [|d s'].
  { right. intros (c' & d & s' & E & _).
    assert (Es : lit "list=" ++ [] = lit "list=" ++ d :: s') by congruence.
    apply app_inv_head in Es. discriminate. }
  destruct (noneOf "#&?" d) eqn:Hd.
  - left. exists c, d, s'. auto.
  - right. intros (c' & d' & t & E & _ & Hd').
    assert (Es : lit "list=" ++ d :: s' = lit "list=" ++ d' :: t)
      by congruence.
    apply app_inv_head in Es. assert (d = d') by congruence.
    subst. congruence.
Qed.

Lemma playlist_fail n s :
  ~ playlist_here s -> rmatch playlistRegExp (MState n s []) Some = None.
Proof.
  intros Hno. unfold playlistRegExp. cbn [rmatch pos rest caps].
  destruct s as [|c s0]; [reflexivity|].
  destruct (oneOf "?&" c) eqn:Hc; [|reflexivity].
  destruct (strip_prefix (lit "list=") s0) as [s1|] eqn:E1; [|reflexivity].
  apply strip_prefix_inv in E1. subst s0. cbn [pos rest caps].
  destruct s1 as [|d s']; [reflexivity|].
  destruct (noneOf "#&?" d) eqn:Hd; [|reflexivity].
  exfalso. apply Hno. exists c, d, s'. auto.
Qed.

Lemma playlist_here_b_complete s : playlist_here s -> playlist_here_b s = true.
Proof.
  intros (c & d & s' & -> & Hc & Hd). unfold playlist_here_b.
  destruct (playlist_match_at 0 c d s' Hc Hd) as (n' & t & ->). reflexivity.
Qed.

Lemma playlist_before_sound :
  forall n s,
    playlist_before n s = false ->
    forall pre suf,
      s = pre ++ suf -> List.length pre < n -> ~ playlist_here suf.
Proof.
  induction n as [|n IH]; intros s H pre suf E Hlt Hp; [lia|].
  cbn [playlist_before] in H. apply orb_false_iff in H. destruct H as [H1 H2].
  destruct pre as [|c pre]; simpl in E.
  - subst suf. apply playlist_here_b_complete in Hp. congruence.
  - subst s. apply (IH _ H2 pre suf eq_refl); [simpl in Hlt; lia|exact Hp].
Qed.

(** X3. [getYouTubePlaylistID] returns an id exactly when the url has a
    parameter [?list=] or [&list=] with a value that is not empty: the id
    is the value of the first such parameter, up to the next [#], [&] or
    [?] or the end of the url. *)
Theorem getYouTubePlaylistID_spec :
  forall (url i : jsstring),
    getYouTubePlaylistID url = Ok (Some i) <->
    exists pre c post,
      url = pre ++ c :: lit "list=" ++ i ++ post /\
      oneOf "?&" c = true /\
      i <> [] /\
      Forall (fun x => noneOf "#&?" x = true) i /\
      ends_candidate post /\
      (forall pre' suf,
         url = pre' ++ suf -> List.length pre' < List.length pre ->
         ~ playlist_here suf).
Proof.
  intros url i. unfold getYouTubePlaylistID, exec. split.
  - destruct (exec_from playlistRegExp 0 url) as [x|] eqn:E; [|discriminate].
    intros H. inversion H as [Hg]; clear H.
    apply exec_from_first in E.
    destruct E as (pre & suf & -> & Hm & Hearlier).
    destruct (playlist_here_dec suf) as [(c & d & s' & -> & Hc & Hd)|Hno].
    2:{ rewrite playlist_fail in Hm by assumption. discriminate. }
    destruct (playlist_match_at (0 + List.length pre) c d s' Hc Hd)
      as (n' & t & E). rewrite E in Hm. inversion Hm; subst x.
    cbn in Hg. inversion Hg; subst i.
    exists pre, c, (drop_while (noneOf "#&?") s'). repeat split.
    + replace ((d :: take_while (noneOf "#&?") s')
                 ++ drop_while (noneOf "#&?") s') with (d :: s');
        [reflexivity|].
      simpl. f_equal. apply take_while_split.
    + exact Hc.
    + discriminate.
    + constructor; [exact Hd|apply take_while_all].
    + pose proof (drop_while_head (noneOf "#&?") s') as Hh.
      destruct (drop_while (noneOf "#&?") s') as [|y t']; [exact I|].
      simpl. unfold noneOf in Hh. apply negb_false_iff in Hh. exact Hh.
    + intros pre' suf' E' Hlt Hp.
      specialize (Hearlier pre' suf' E' Hlt).
      destruct Hp as (c' & d' & t' & -> & Hc' & Hd').
      destruct (playlist_match_at (0 + List.length pre') c' d' t' Hc' Hd')
        as (n2 & t2 & E2).
      rewrite E2 in Hearlier. discriminate.
  - intros (pre & c & post & -> & Hc & Hne & Hi & Hpost & Hleft).
    destruct i as [|d i']; [congruence|].
    inversion Hi as [|? ? Hd Hi']; subst.
    destruct (take_while_app (noneOf "#&?") i' post Hi'
                (ends_candidate_stop post Hpost)) as [Htw _].
    destruct (playlist_match_at (0 + List.length pre) c d (i' ++ post) Hc Hd)
      as (n' & t & E).
    rewrite (exec_from_at playlistRegExp
               (MState n' t [(1, d :: take_while (noneOf "#&?") (i' ++ post))])
               pre (c :: lit "list=" ++ (d :: i') ++ post) 0).
    + cbn. rewrite Htw. reflexivity.
    + exact E.
    + intros pre' suf' E' Hlt. apply playlist_fail.
      apply (Hleft pre' suf' E' Hlt).
Qed.

Lemma getYouTubePlaylistID_spec_witness :
  getYouTubePlaylistID
    (lit "https://www.youtube.com/watch?v=dQw4w9WgXcQ" ++ 38%N
       :: lit "list=" ++ lit "PLrAXtmRdnEQy6nuLMOV7V4r4s_nloyEfR"
       ++ lit "&index=2&list=PLother")
  = Ok (Some (lit "PLrAXtmRdnEQy6nuLMOV7V4r4s_nloyEfR")).
Proof.
  apply (proj2 (getYouTubePlaylistID_spec _ _)).
  exists (lit "https://www.youtube.com/watch?v=dQw4w9WgXcQ"), 38%N,
    (lit "&index=2&list=PLother").
  split; [reflexivity|]. split; [reflexivity|].
  split; [discriminate|]. split; [repeat constructor|].
  split; [reflexivity|].
  intros pre' suf E Hlt.
  eapply (playlist_before_sound 43); [|exact E|exact Hlt].
  vm_compute. reflexivity.
Defined.

Lemma exec_from_none_inv r :
  forall s n,
    exec_from r n s = None ->
    forall pre suf, s = pre ++ suf ->
      rmatch r (MState (n + List.length pre) suf []) Some = None.
Proof.
  induction s as [|c s IH]; intros n H pre suf E; simpl in H.
  - destruct pre; [|discriminate]. simpl in *. subst suf.
    rewrite Nat.add_0_r.
    destruct (rmatch r (MState n [] []) Some); [discriminate|reflexivity].
  - destruct (rmatch r (MState n (c :: s) []) Some) eqn:E0; [discriminate|].
    destruct pre as [|c' pre]; simpl in *.
    + subst suf. rewrite Nat.add_0_r. exact E0.
    + inversion E; subst c' s. rewrite <- Nat.add_succ_comm.
      apply (IH (S n) H pre suf eq_refl).
Qed.

(** X4. A url in which no [?list=] or [&list=] is followed by a value has
    no playlist id, and only such a url has none. *)
Theorem getYouTubePlaylistID_null :
  forall url : jsstring,
    getYouTubePlaylistID url = Ok None <->
    (forall pre suf, url = pre ++ suf -> ~ playlist_here suf).
Proof.
  intros url. unfold getYouTubePlaylistID, exec. split.
  - destruct (exec_from playlistRegExp 0 url) as [x|] eqn:E.
    + intros H. inversion H as [Hg]. exfalso.
      apply exec_from_inv in E. destruct E as (n & s & E).
      apply playlistRegExp_capture in E. destruct E as (c & g & E).
      rewrite E in Hg. discriminate.
    + intros _ pre suf Hurl Hp.
      destruct Hp as (c & d & s' & -> & Hc & Hd).
      destruct (playlist_match_at (0 + List.length pre) c d s' Hc Hd)
        as (n' & t & E2).
      rewrite (exec_from_none_inv playlistRegExp url 0 E pre _ Hurl) in E2.
      discriminate.
  - intros Hno. rewrite exec_from_none; [reflexivity|].
    intros pre suf E. apply playlist_fail. apply (Hno pre suf E).
Qed.

Lemma getYouTubePlaylistID_null_witness :
  getYouTubePlaylistID (lit "https://www.youtube.com/watch?v=dQw4w9WgXcQ&list=")
  = Ok None /\
  getYouTubePlaylistID (lit "list=PLrAXtmRdnEQy6nuLMOV7V4r4s_nloyEfR")
  = Ok None.
Proof.
  split; apply (proj2 (getYouTubePlaylistID_null _)); intros pre suf E.
  - eapply (playlist_before_sound
              (S (List.length
                    (lit "https://www.youtube.com/watch?v=dQw4w9WgXcQ&list="))));
      [|exact E|].
    + vm_compute. reflexivity.
    + rewrite E, length_app. lia.
  - eapply (playlist_before_sound
              (S (List.length (lit "list=PLrAXtmRdnEQy6nuLMOV7V4r4s_nloyEfR"))));
      [|exact E|].
    + vm_compute. reflexivity.
    + rewrite E, length_app. lia.
Defined.

(** ** The cost of a resolution *)

Lemma delays_of_app w1 w2 : delays_of (w1 ++ w2) = delays_of w1 ++ delays_of w2.
Proof. unfold delays_of. apply flat_map_app. Qed.

(** The retrier over the network: between two attempts it waits the
    delay of the retry count, and it gives up only after the last one. *)
Lemma retryWithBackoff_trace {A} cfg (operation : M World A) lo :
  (forall w r w', operation w = (r, w') ->
     exists evs, w' = w ++ evs /\ delays_of evs = [] /\
       lo <= List.length (requests evs) <= 1) ->
  forall d retryCount w r w',
    maxRetries cfg - retryCount = d ->
    retryWithBackoff cfg operation retryCount w = (r, w') ->
    exists evs n,
      w' = w ++ evs /\ n <= d /\
      delays_of evs = map (backoffDelay cfg) (seq retryCount n) /\
      lo * S n <= List.length (requests evs) <= S n /\
      (forall e, r = Throw e -> n = d).
Proof.
  intros Hop. induction d as [|d IH]; intros k w r w' Hd H;
    rewrite retryWithBackoff_step in H;
    destruct (operation w) as [[a|e] w1] eqn:E;
    destruct (Hop _ _ _ E) as (evs1 & -> & Hd1 & Hr1).
  - inversion H; subst. exists evs1, 0. cbn.
    repeat split; try lia; try assumption; intros; discriminate.
  - destruct (Nat.leb_spec (maxRetries cfg) k); [|lia].
    inversion H; subst. exists evs1, 0. cbn.
    repeat split; try lia; try assumption.
  - inversion H; subst. exists evs1, 0. cbn.
    repeat split; try lia; try assumption; intros; discriminate.
  - destruct (Nat.leb_spec (maxRetries cfg) k); [lia|].
    apply IH in H; [|lia].
    destruct H as (evs2 & n & -> & Hn & Hd2 & Hr2 & Hex).
    exists (evs1 ++ [EvDelay (backoffDelay cfg k)] ++ evs2), (S n).
    unfold delay, World_Timer. rewrite <- !app_assoc.
    split; [reflexivity|]. split; [lia|].
    rewrite !delays_of_app, !requests_app, !length_app, Hd1, Hd2. cbn.
    repeat split; try lia.
    intros e' He. rewrite (Hex e' He). reflexivity.
Qed.

Lemma noembed_operation_trace h url w r w' :
  fetchVideoDataFromNoEmbed_operation h url w = (r, w') ->
  exists evs, w' = w ++ evs /\ delays_of evs = [] /\
    (if fulfilled (encodeURIComponent h url) then 1 else 0)
    <= List.length (requests evs) <= 1.
Proof.
  intros H. unfold fetchVideoDataFromNoEmbed_operation in H.
  run_in H.
  all: repeat match goal with
         | E : (_, _) = (_, _) |- _ => inversion E; subst; clear E
         end.
  all: try match goal with
       | E : encodeURIComponent _ _ = _ |- _ => rewrite E
       end.
  all: first
    [ exists []; rewrite app_nil_r; cbn; repeat split; lia
    | eexists [_]; split; [reflexivity|]; cbn; split; [reflexivity|lia] ].
Qed.

Lemma playlist_operation_trace h url w r w' :
  fetchPlaylistData_operation h url w = (r, w') ->
  exists evs, w' = w ++ evs /\ delays_of evs = [] /\
    (if fulfilled (encodeURIComponent h url) then 1 else 0)
    <= List.length (requests evs) <= 1.
Proof.
  intros H. unfold fetchPlaylistData_operation in H.
  run_in H.
  all: repeat match goal with
         | E : (_, _) = (_, _) |- _ => inversion E; subst; clear E
         end.
  all: try match goal with
       | E : encodeURIComponent _ _ = _ |- _ => rewrite E
       end.
  all: first
    [ exists []; rewrite app_nil_r; cbn; repeat split; lia
    | eexists [_]; split; [reflexivity|]; cbn; split; [reflexivity|lia] ].
Qed.

Lemma primaryLookup_trace h url v p w r w' :
  primaryLookup h url v p w = (r, w') ->
  exists evs n,
    w' = w ++ evs /\ n <= 3 /\
    delays_of evs = map (backoffDelay retryConfig) (seq 0 n) /\
    (if fulfilled (encodeURIComponent h url) then 1 else 0) * S n
    <= List.length (requests evs) <= S n /\
    (forall e, r = Throw e -> n = 3).
Proof.
  unfold primaryLookup.
  destruct (truthyId p && negb (truthyId v)); intros H.
  - apply (retryWithBackoff_trace retryConfig
             (fetchPlaylistData_operation h url) _
             (playlist_operation_trace h url) 3 0 w r w' eq_refl H).
  - apply (retryWithBackoff_trace retryConfig
             (fetchVideoDataFromNoEmbed_operation h url) _
             (noembed_operation_trace h url) 3 0 w r w' eq_refl H).
Qed.

(** X5. One resolution issues at most 4 requests, and the timers it waits
    for are an initial part of 1000, 2000, 4000 ms: at most 7000 ms in
    all. *)
Theorem fetchVideoData_budget :
  forall (h : Host) (url : jsstring) (w : World),
  exists evs n,
    snd (fetchVideoData h url w) = w ++ evs /\
    List.length (requests evs) <= 4 /\
    n <= 3 /\
    delays_of evs = firstn n [1000; 2000; 4000]%Z /\
    (fold_right Z.add 0 (delays_of evs) <= 7000)%Z.
Proof.
  intros h url w.
  destruct (getYouTubeID_total url) as (v & Hv).
  destruct (getYouTubePlaylistID_total url) as (p & Hp).
  rewrite (fetchVideoData_eq h url v p w Hv Hp). unfold tryM, lift.
  destruct (primaryLookup h url v p w) as [r w1] eqn:E.
  destruct (primaryLookup_trace h url v p w r w1 E)
    as (evs & n & -> & Hn & Hd & Hr & _).
  exists evs, n.
  split; [destruct r; reflexivity|]. split; [lia|]. split; [exact Hn|].
  rewrite Hd.
  destruct n as [|[|[|[|n]]]]; try lia; cbn; split; try reflexivity; lia.
Qed.

(** X6. The fallback is reached only after the whole backoff: a result
    tagged [fallback] comes after the three timers of 1000, 2000 and 4000
    ms, and after 4 requests when the url can be encoded. *)
Theorem fetchVideoData_fallback_exhausted :
  forall (h : Host) (url : jsstring) (w w' : World) (r : ApiResponse),
    fetchVideoData h url w = (Ok r, w') ->
    source r = fallback ->
    exists evs,
      w' = w ++ evs /\
      delays_of evs = [1000; 2000; 4000]%Z /\
      (forall enc, encodeURIComponent h url = Ok enc ->
         List.length (requests evs) = 4).
Proof.
  intros h url w w' r H Hsrc.
  destruct (getYouTubeID_total url) as (v & Hv).
  destruct (getYouTubePlaylistID_total url) as (p & Hp).
  rewrite (fetchVideoData_eq h url v p w Hv Hp) in H. unfold tryM, lift in H.
  destruct (primaryLookup h url v p w) as [[a|e] w1] eqn:E.
  - inversion H; subst.
    destruct (primaryLookup_primary h url v p w r w' E) as (_ & _ & Hprim).
    congruence.
  - inversion H; subst.
    destruct (primaryLookup_trace h url v p w _ _ E)
      as (evs & n & -> & Hn & Hd & Hr & Hex).
    rewrite (Hex e eq_refl) in *.
    exists evs. split; [reflexivity|]. split; [exact Hd|].
    intros enc Henc. rewrite Henc in Hr. cbn in Hr. lia.
Qed.

Lemma fetchVideoData_fallback_exhausted_witness :
  exists evs,
    snd (fetchVideoData offline (lit "https://youtu.be/dQw4w9WgXcQ") [])
    = [] ++ evs /\
    delays_of evs = [1000; 2000; 4000]%Z /\
    (forall enc,
       encodeURIComponent offline (lit "https://youtu.be/dQw4w9WgXcQ") = Ok enc ->
       List.length (requests evs) = 4).
Proof.
  destruct (fetchVideoData offline (lit "https://youtu.be/dQw4w9WgXcQ") [])
    as [r0 w0] eqn:E.
  assert (Hr : exists r, r0 = Ok r /\ source r = fallback).
  { vm_compute in E. inversion E. eexists. split; reflexivity. }
  destruct Hr as (r & -> & Hsrc).
  exact (fetchVideoData_fallback_exhausted offline
           (lit "https://youtu.be/dQw4w9WgXcQ") [] w0 r E Hsrc).
Defined.

(** ** What a primary result rests on *)

(** What a successful attempt of the playlist lookup returns. *)
Lemma playlist_operation_result h url w r w' :
  fetchPlaylistData_operation h url w = (Ok r, w') ->
  exists enc resp body err info items len first thumb playlistTitle,
    encodeURIComponent h url = Ok enc /\
    fetch h w (playlistEndpoint ++ enc) 10000 = Ok resp /\
    w' = w ++ [EvFetch (playlistEndpoint ++ enc) 10000] /\
    ok resp = true /\ json resp = Ok body /\
    getProp body "error" = Ok err /\ truthy err = false /\
    getProp body "playlist_info" = Ok info /\ truthy info = true /\
    getProp info "items" = Ok items /\
    getProp items "length" = Ok len /\ len <> VNum 0 /\
    getIndex items 0 = Ok first /\
    match first with
    | VUndefined | VNull => Ok VUndefined
    | _ => getProp first "thumbnail"
    end = Ok thumb /\
    getProp info "title" = Ok playlistTitle /\
    r = {| data :=
             {| title := orElse playlistTitle (VStr (lit "YouTube Playlist"));
                thumbnailUrl := orElse thumb (VStr (lit "placeholder")) |};
           success := true; error := None; source := primary |}.
Proof.
  intros H. unfold fetchPlaylistData_operation in H.
  run_in H.
  all: inversion H; subst; clear H.
  all: repeat match goal with
         | E : negb _ = false |- _ => apply negb_false_iff in E
         | E : negb _ = true |- _ => apply negb_true_iff in E
         end.
  all: do 10 eexists; repeat split; try eassumption; try reflexivity.
  all: discriminate.
Qed.

Lemma noembed_operation_error h url w r w' :
  fetchVideoDataFromNoEmbed_operation h url w = (Ok r, w') ->
  exists enc resp body err,
    fetch h w (noembedEndpoint ++ enc) 10000 = Ok resp /\
    w' = w ++ [EvFetch (noembedEndpoint ++ enc) 10000] /\
    ok resp = true /\ json resp = Ok body /\
    getProp body "error" = Ok err /\ truthy err = false.
Proof.
  intros H. unfold fetchVideoDataFromNoEmbed_operation in H.
  run_in H.
  inversion H; subst; clear H.
  match goal with E : negb (ok ?a) = false |- _ =>
    apply negb_false_iff in E end.
  do 4 eexists. repeat split; try eassumption; reflexivity.
Qed.

(** X7. A result tagged [primary] rests on a response: the last request
    of the resolution was answered with [ok], its body could be read and
    the [error] field of the body is falsy.  No response with another
    status and no body flagged with an error is ever taken. *)
Theorem fetchVideoData_primary_response :
  forall (h : Host) (url : jsstring) (w w' : World) (r : ApiResponse),
    fetchVideoData h url w = (Ok r, w') ->
    source r = primary ->
    exists w0 address resp body err,
      w' = w0 ++ [EvFetch address 10000] /\
      fetch h w0 address 10000 = Ok resp /\
      ok resp = true /\
      json resp = Ok body /\
      getProp body "error" = Ok err /\ truthy err = false.
Proof.
  intros h url w w' r H Hsrc.
  destruct (getYouTubeID_total url) as (v & Hv).
  destruct (getYouTubePlaylistID_total url) as (p & Hp).
  rewrite (fetchVideoData_eq h url v p w Hv Hp) in H. unfold tryM, lift in H.
  destruct (primaryLookup h url v p w) as [[a|e] w1] eqn:E.
  - inversion H; subst a w1. clear H. unfold primaryLookup in E.
    destruct (truthyId p && negb (truthyId v)).
    + unfold fetchPlaylistData in E.
      apply (retryWithBackoff_ok_inv retryConfig _ _ _ 3 0 w eq_refl) in E.
      destruct E as (w0 & E). apply playlist_operation_result in E.
      destruct E as (enc & resp & body & err & info & items & len & first
                     & thumb & pt & _ & Hf & Hw & Hok & Hj & He & Ht & _).
      exists w0, (playlistEndpoint ++ enc), resp, body, err. auto 10.
    + unfold fetchVideoDataFromNoEmbed in E.
      apply (retryWithBackoff_ok_inv retryConfig _ _ _ 3 0 w eq_refl) in E.
      destruct E as (w0 & E). apply noembed_operation_error in E.
      destruct E as (enc & resp & body & err & Hf & Hw & Hok & Hj & He & Ht).
      exists w0, (noembedEndpoint ++ enc), resp, body, err. auto 10.
  - destruct (fetchWithFallback_ok url v) as (t & _ & Hf).
    rewrite Hf in H. inversion H; subst. discriminate.
Qed.

Lemma fetchVideoData_primary_response_witness :
  exists w0 address resp body err,
    [EvFetch (noembedEndpoint ++ lit "https://youtu.be/dQw4w9WgXcQ") 10000]
    = w0 ++ [EvFetch address 10000] /\
    fetch (answering (VObj [(lit "title", VStr (lit "Test Video"))]))
      w0 address 10000 = Ok resp /\
    ok resp = true /\
    json resp = Ok body /\
    getProp body "error" = Ok err /\ truthy err = false.
Proof.
  apply (fetchVideoData_primary_response
           (answering (VObj [(lit "title", VStr (lit "Test Video"))]))
           (lit "https://youtu.be/dQw4w9WgXcQ") [] _
           {| data :=
                {| title := VStr (lit "Test Video");
                   thumbnailUrl :=
                     VStr (lit "https://img.youtube.com/vi/dQw4w9WgXcQ/mqdefault.jpg")
                |};
              success := true; error := None; source := primary |}).
  - vm_compute. reflexivity.
  - reflexivity.
Defined.

(** X8. A successful playlist lookup returns what the last response
    carried: its [playlist_info] is truthy and the [length] of its [items]
    is not 0; the title is the [title] of [playlist_info] when truthy and
    ["YouTube Playlist"] otherwise; the thumbnail is the [thumbnail] of
    the first item when there is one and it is truthy, and the sentinel
    ["placeholder"] otherwise. *)
Theorem fetchPlaylistData_result :
  forall (h : Host) (url : jsstring) (w w' : World) (r : ApiResponse),
    fetchPlaylistData h url w = (Ok r, w') ->
    exists w0 enc resp body info items first thumb playlistTitle,
      encodeURIComponent h url = Ok enc /\
      fetch h w0 (playlistEndpoint ++ enc) 10000 = Ok resp /\
      w' = w0 ++ [EvFetch (playlistEndpoint ++ enc) 10000] /\
      ok resp = true /\
      json resp = Ok body /\
      getProp body "playlist_info" = Ok info /\ truthy info = true /\
      getProp info "items" = Ok items /\
      getProp items "length" <> Ok (VNum 0) /\
      (forall l, items = VArr l -> exists x l', l = x :: l' /\ first = x) /\
      getIndex items 0 = Ok first /\
      match first with
      | VUndefined | VNull => Ok VUndefined
      | _ => getProp first "thumbnail"
      end = Ok thumb /\
      getProp info "title" = Ok playlistTitle /\
      source r = primary /\
      title (data r)
      = (if truthy playlistTitle then playlistTitle
         else VStr (lit "YouTube Playlist")) /\
      thumbnailUrl (data r)
      = (if truthy thumb then thumb else VStr (lit "placeholder")).
Proof.
  intros h url w w' r H. unfold fetchPlaylistData in H.
  apply (retryWithBackoff_ok_inv retryConfig _ _ _ 3 0 w eq_refl) in H.
  destruct H as (w0 & H). apply playlist_operation_result in H.
  destruct H as (enc & resp & body & err & info & items & len & first
                 & thumb & pt & Henc & Hf & Hw & Hok & Hj & He & Ht
                 & Hinfo & Htinfo & Hitems & Hlen & Hnz & Hfirst & Hthumb
                 & Htitle & ->).
  exists w0, enc, resp, body, info, items, first, thumb, pt. cbn.
  repeat split; try assumption.
  - rewrite Hlen. intros C. inversion C. congruence.
  - intros l ->. cbn in Hlen, Hfirst. destruct l as [|x l'].
    + inversion Hlen. congruence.
    + inversion Hfirst. eauto.
Qed.

Lemma fetchPlaylistData_result_witness :
  exists r w',
    fetchPlaylistData
      (answering
         (VObj [(lit "playlist_info",
                 VObj [(lit "items", VArr [VObj []])])]))
      (lit "https://www.youtube.com/playlist?list=PL1") [] = (Ok r, w') /\
    title (data r) = VStr (lit "YouTube Playlist") /\
    thumbnailUrl (data r) = VStr (lit "placeholder").
Proof.
  eexists. eexists. split; [vm_compute; reflexivity|].
  destruct (fetchPlaylistData_result
    (answering
       (VObj [(lit "playlist_info",
               VObj [(lit "items", VArr [VObj []])])]))
    (lit "https://www.youtube.com/playlist?list=PL1") [] _ _
    ltac:(vm_compute; reflexivity))
    as (w0 & enc & resp & body & info & items & first & thumb & pt
        & _ & _ & _ & _ & _ & _ & _ & _ & _ & _ & _ & _ & _ & _ & Ht & Hth).
  split; reflexivity.
Defined.

(** ** The label of a date *)



(** ** The error hook *)




(** The cases of the test suite of the hook. *)
Example test_handleAsyncError_cases :
  let run m em :=
    snd (snd (ErrorHandler.handleAsyncError
                (fun w : unit => (@ErrorHandler.Rejected nat m, w))
                em (tt, ErrorHandler.clearError))) in
  run (lit "Network error occurred") (Some (lit "Custom error message"))
  = ErrorHandler.setError (lit "Custom error message")
      (Some ErrorHandler.unknown) /\
  run (lit "fetch failed") None
  = ErrorHandler.setError
      (lit "Network error. Please check your connection and try again.")
      (Some ErrorHandler.network) /\
  run (lit "Invalid input validation") (Some (lit "Custom error message"))
  = ErrorHandler.setError (lit "Invalid input validation")
      (Some ErrorHandler.validation) /\
  run (lit "API response error") (Some (lit "Custom error message"))
  = ErrorHandler.setError
      (lit "Service temporarily unavailable. Please try again later.")
      (Some ErrorHandler.api) /\
  run (lit "Unknown error") None
  = ErrorHandler.setError (lit "An unexpected error occurred")
      (Some ErrorHandler.unknown).
Proof. vm_compute. repeat split. Qed.

(** ** The thumbnail of a video *)

Lemma fetchVideoData_settles h url w :
  exists r w', fetchVideoData h url w = (Ok r, w') /\ success r = true.
Proof.
  destruct (getYouTubeID_total url) as (v & Hv).
  destruct (getYouTubePlaylistID_total url) as (p & Hp).
  rewrite (fetchVideoData_eq h url v p w Hv Hp). unfold tryM.
  destruct (primaryLookup h url v p w) as [[r|e] w1] eqn:E.
  - exists r, w1. split; [reflexivity|].
    apply (primaryLookup_primary h url v p w r w1 E).
  - destruct (fetchWithFallback_ok url v) as (t & _ & Hf).
    unfold lift. rewrite Hf. eexists _, w1. split; reflexivity.
Qed.

Lemma fetchVideoData_thumbnail_of_id :
  forall (h : Host) (url i : jsstring) (w w' : World) (r : ApiResponse),
    getYouTubeID url = Ok (Some i) ->
    fetchVideoData h url w = (Ok r, w') ->
    thumbnailUrl (data r)
    = VStr (lit "https://img.youtube.com/vi/" ++ i ++ lit "/mqdefault.jpg").
Proof.
  intros h url i w w' r Hv H.
  destruct (getYouTubePlaylistID_total url) as (p & Hp).
  rewrite (fetchVideoData_eq h url (Some i) p w Hv Hp) in H.
  rewrite (primaryLookup_eq h url (Some i) p Hv Hp) in H.
  unfold tryM, lift in H.
  assert (Hpath : match p with
                  | Some _ => fetchVideoDataFromNoEmbed h url
                  | None => fetchVideoDataFromNoEmbed h url
                  end = fetchVideoDataFromNoEmbed h url)
    by (destruct p; reflexivity).
  rewrite Hpath in H. clear Hpath.
  destruct (fetchVideoDataFromNoEmbed h url w) as [[a|e] w1] eqn:E.
  - inversion H; subst a w1. unfold fetchVideoDataFromNoEmbed in E.
    apply (retryWithBackoff_ok_inv retryConfig _ _ _ 3 0 w eq_refl) in E.
    destruct E as (w0 & E). apply noembed_operation_ok in E.
    destruct E as (enc & resp & body & st & v & thumb & _ & _ & _ & _ & _
                   & _ & Hv' & Hthumb & ->).
    rewrite Hv in Hv'. inversion Hv'; subst v.
    rewrite (truthyId_video url (Some i) Hv) in Hthumb.
    inversion Hthumb. reflexivity.
  - destruct (fetchWithFallback_ok url (Some i)) as (t & _ & Hf).
    rewrite Hf, (truthyId_video url (Some i) Hv) in H.
    inversion H; subst. reflexivity.
Qed.

(** X11. For a url in which the service finds a video id, the thumbnail
    of the result is the canonical address of that id, whatever the
    network answers and whichever tier produced the result. *)
Theorem fetchVideoData_thumbnail :
  forall (h : Host) (url i : jsstring) (w w' : World) (r : ApiResponse),
    getYouTubeID url = Ok (Some i) ->
    fetchVideoData h url w = (Ok r, w') ->
    thumbnailUrl (data r)
    = VStr (lit "https://img.youtube.com/vi/" ++ i ++ lit "/mqdefault.jpg").
Proof. exact fetchVideoData_thumbnail_of_id. Qed.

Lemma fetchVideoData_thumbnail_witness :
  thumbnailUrl
    (data match fst (fetchVideoData (answeringStatus 503)
                       (lit "https://youtu.be/dQw4w9WgXcQ") []) with
          | Ok r => r
          | Throw _ =>
              {| data := {| title := VUndefined; thumbnailUrl := VUndefined |};
                 success := false; error := None; source := fallback |}
          end)
  = VStr (lit "https://img.youtube.com/vi/" ++ lit "dQw4w9WgXcQ"
            ++ lit "/mqdefault.jpg").
Proof.
  destruct (fetchVideoData_settles (answeringStatus 503)
              (lit "https://youtu.be/dQw4w9WgXcQ") []) as (r & w' & E & _).
  rewrite E. cbn [fst].
  apply (fetchVideoData_thumbnail (answeringStatus 503)
           (lit "https://youtu.be/dQw4w9WgXcQ") (lit "dQw4w9WgXcQ")
           [] w' r); [vm_compute; reflexivity|exact E].
Defined.

(** ** Saving an item *)

Lemma rmatch_group_last l i r st x :
  rmatch (Cat l (Group i r)) st Some = Some x ->
  exists g, group i (caps x) = Some g.
Proof.
  intros H. cbn [rmatch] in H.
  apply rmatch_from_cont in H. destruct H as (st1 & H).
  apply rmatch_from_cont in H. destruct H as (st2 & H).
  inversion H; subst. cbn. rewrite Nat.eqb_refl. eauto.
Qed.


Lemma gate_group_last l r url :
  exists o,
    App.gate (exec (Cat l (Group 1 r)) url) 1 = Ok o /\
    forall i, o = Some i -> List.length i = 11.
Proof.
  unfold App.gate.
  destruct (exec (Cat l (Group 1 r)) url) as [x|] eqn:E.
  - apply exec_from_inv in E. destruct E as (n & s & E).
    apply rmatch_group_last in E. destruct E as (g & ->).
    destruct (Nat.eqb_spec (List.length g) 11).
    + eexists. split; [reflexivity|]. intros i Hi. inversion Hi; subst.
      assumption.
    + eexists. split; [reflexivity|]. discriminate.
  - eexists. split; [reflexivity|]. discriminate.
Qed.

Lemma gate_videoRegExp url : App.gate (exec videoRegExp url) 2 = getYouTubeID url.
Proof. reflexivity. Qed.

(** The extractor of the popup never throws, and an id it returns has 11
    code units. *)
Lemma App_getYouTubeID_total url :
  exists o,
    App.getYouTubeID url = Ok o /\
    forall i, o = Some i -> List.length i = 11.
Proof.
  unfold App.getYouTubeID, App.youtuBeRegExp, App.youtubeRegExp.
  destruct (gate_group_last (Lit (lit "youtu.be/"))
              (Cat (Chars (noneOf "#&?")) (Star (noneOf "#&?"))) url)
    as (o1 & -> & H1).
  cbn [rbind]. destruct o1 as [i1|]; [eauto|].
  destruct (gate_group_last
              (Alt (Lit (lit "youtube.com/watch?v="))
                 (Alt (Lit (lit "youtube.com/embed/"))
                    (Lit (lit "youtube.com/v/"))))
              (Cat (Chars (noneOf "#&?")) (Star (noneOf "#&?"))) url)
    as (o2 & -> & H2).
  cbn [rbind]. destruct o2 as [i2|]; [eauto|].
  rewrite gate_videoRegExp.
  destruct (getYouTubeID_total url) as (o3 & H3). rewrite H3.
  exists o3. split; [reflexivity|]. intros i ->.
  apply (getYouTubeID_length url i H3).
Qed.

(** A url in which the service finds a video id passes for the popup. *)
Lemma App_getYouTubeID_covers url i :
  getYouTubeID url = Ok (Some i) ->
  exists j, App.getYouTubeID url = Ok (Some j).
Proof.
  intros H. unfold App.getYouTubeID, App.youtuBeRegExp, App.youtubeRegExp.
  destruct (gate_group_last (Lit (lit "youtu.be/"))
              (Cat (Chars (noneOf "#&?")) (Star (noneOf "#&?"))) url)
    as (o1 & -> & H1).
  cbn [rbind]. destruct o1 as [i1|]; [eauto|].
  destruct (gate_group_last
              (Alt (Lit (lit "youtube.com/watch?v="))
                 (Alt (Lit (lit "youtube.com/embed/"))
                    (Lit (lit "youtube.com/v/"))))
              (Cat (Chars (noneOf "#&?")) (Star (noneOf "#&?"))) url)
    as (o2 & -> & H2).
  cbn [rbind]. destruct o2 as [i2|]; [eauto|].
  rewrite gate_videoRegExp, H. eauto.
Qed.

Lemma fetchData_resolves b videoUrl w :
  exists r w',
    fetchVideoData (App.host b) videoUrl w = (Ok r, w') /\
    App.fetchData b videoUrl w = (ErrorHandler.Resolved (data r), w').
Proof.
  destruct (fetchVideoData_settles (App.host b) videoUrl w)
    as (r & w' & E & Hs).
  exists r, w'. split; [exact E|].
  unfold App.fetchData. rewrite E, Hs. reflexivity.
Qed.

Lemma App_truthyId_video url v :
  App.getYouTubeID url = Ok v ->
  truthyId v = match v with Some _ => true | None => false end.
Proof.
  intros H. destruct (App_getYouTubeID_total url) as (o & Ho & Hlen).
  rewrite H in Ho. inversion Ho; subst o.
  destruct v as [i|]; [|reflexivity].
  specialize (Hlen i eq_refl). destruct i; [discriminate|reflexivity].
Qed.

Lemma App_truthyId_playlist url p :
  App.getYouTubePlaylistID url = Ok p ->
  truthyId p = match p with Some _ => true | None => false end.
Proof. exact (truthyId_playlist url p). Qed.

Ltac popup_simpl :=
  cbn [App.items App.newUrl App.newTag App.selectedTag App.searchQuery
       App.saveState App.notification App.selectedItems App.errorState
       App.net App.clockReads App.timeouts
       App.setItems App.setSelectedItems App.setSaveState App.setErrorState
       App.setInputs App.showNotification App.setNet App.tick
       App.setTimeout] in *.

(** X12. [handleSaveItem] refuses an empty url and a url in which the
    popup finds neither a video id nor a playlist id: it shows a
    validation error and does nothing else: no request is issued, no
    item is added, the clock is not read. *)
Theorem handleSaveItem_rejects_invalid :
  forall (b : App.Browser) (urlArg tagArg : option jsstring) (p : App.Popup)
         (videoUrl : jsstring),
    videoUrl
    = App.orString (match urlArg with Some u => u | None => [] end)
        (App.newUrl p) ->
    videoUrl = [] \/
    (App.getYouTubeID videoUrl = Ok None /\
     App.getYouTubePlaylistID videoUrl = Ok None) ->
    exists p',
      App.handleSaveItem b urlArg tagArg p = Ok p' /\
      App.items p' = App.items p /\
      App.net p' = App.net p /\
      App.clockReads p' = App.clockReads p /\
      App.timeouts p' = App.timeouts p /\
      App.saveState p' = App.saveState p /\
      ErrorHandler.hasError (App.errorState p') = true /\
      ErrorHandler.type (App.errorState p') = ErrorHandler.validation /\
      ErrorHandler.message (App.errorState p')
      = match videoUrl with
        | [] => lit "Please enter a YouTube URL."
        | _ :: _ =>
            lit "Invalid URL. Please enter a valid YouTube video or playlist URL."
        end.
Proof.
  intros b urlArg tagArg p videoUrl Hurl Hbad.
  unfold App.handleSaveItem. cbv zeta. popup_simpl. rewrite <- Hurl.
  destruct videoUrl as [|c u].
  - eexists. split; [reflexivity|]. popup_simpl. repeat split.
  - destruct Hbad as [Hbad|[Hv Hp]]; [discriminate|].
    rewrite Hp, Hv. cbn [rbind truthyId negb andb].
    eexists. split; [reflexivity|]. popup_simpl. repeat split.
Qed.

Lemma handleSaveItem_rejects_invalid_witness :
  exists p',
    App.handleSaveItem (browserOf offline) (Some (lit "https://example.org/"))
      (Some (lit "music")) (popupWith [] []) = Ok p' /\
    App.items p' = [] /\
    App.net p' = [] /\
    ErrorHandler.message (App.errorState p')
    = lit "Invalid URL. Please enter a valid YouTube video or playlist URL.".
Proof.
  destruct (handleSaveItem_rejects_invalid (browserOf offline)
              (Some (lit "https://example.org/")) (Some (lit "music"))
              (popupWith [] []) (lit "https://example.org/") eq_refl
              ltac:(right; split; vm_compute; reflexivity))
    as (p' & H & Hi & Hn & _ & _ & _ & _ & _ & Hm).
  exists p'. auto.
Defined.

Lemma handleSaveItem_run :
  forall (b : App.Browser) (urlArg tagArg : option jsstring) (p : App.Popup)
         (videoUrl videoTag : jsstring) (videoId playlistId : option jsstring),
    videoUrl
    = App.orString (match urlArg with Some u => u | None => [] end)
        (App.newUrl p) ->
    videoTag
    = App.orString (match tagArg with Some t => t | None => [] end)
        (App.newTag p) ->
    videoUrl <> [] ->
    App.getYouTubeID videoUrl = Ok videoId ->
    App.getYouTubePlaylistID videoUrl = Ok playlistId ->
    videoId <> None \/ playlistId <> None ->
    exists r w' p',
      fetchVideoData (App.host b) videoUrl (App.net p) = (Ok r, w') /\
      App.handleSaveItem b urlArg tagArg p = Ok p' /\
      App.items p'
      = {| App.id := App.now b (App.clockReads p);
           App.url := videoUrl;
           App.title := title (data r);
           App.thumbnail := thumbnailUrl (data r);
           App.dateAdded := App.now b (S (App.clockReads p));
           App.watched := false;
           App.type := match playlistId with
                       | Some _ => App.playlist
                       | None => App.video
                       end;
           App.order :=
             Z.of_nat (List.length
                         (filter (App.hasTag videoTag) (App.items p)));
           App.tags := match videoTag with
                       | [] => []
                       | _ :: _ => [videoTag]
                       end |} :: App.items p /\
      App.net p' = w' /\
      App.saveState p' = App.Success /\
      ErrorHandler.hasError (App.errorState p') = false /\
      App.newUrl p' = [] /\ App.newTag p' = [] /\
      App.timeouts p' = App.timeouts p ++ [2000%Z].
Proof.
  intros b urlArg tagArg p videoUrl videoTag v pl Hurl Htag Hne Hv Hp Hsome.
  destruct (fetchData_resolves b videoUrl (App.net p)) as (r & w' & E & Hf).
  exists r, w'.
  unfold App.handleSaveItem. cbv zeta. popup_simpl.
  rewrite <- Hurl, <- Htag.
  destruct videoUrl as [|c u]; [congruence|].
  rewrite Hp, Hv. cbn [rbind].
  rewrite (App_truthyId_video _ _ Hv), (App_truthyId_playlist _ _ Hp).
  assert (Hgo : negb match v with Some _ => true | None => false end
                && negb match pl with Some _ => true | None => false end
                = false).
  { destruct v, pl; try reflexivity. destruct Hsome; congruence. }
  rewrite Hgo.
  unfold ErrorHandler.handleAsyncError. cbn [fst snd]. rewrite Hf.
  destruct r as [[t th] s e src]. cbn [data title thumbnailUrl] in *.
  eexists. split; [exact E|]. split; [reflexivity|]. popup_simpl.
  repeat split. destruct pl; reflexivity.
Qed.

(** X13. A url that passes the validation of the popup is always saved,
    whatever the network does: the new item heads the list with the title
    and thumbnail that [fetchVideoData] returned, the first clock read as
    id, the type [playlist] exactly when a playlist id was found, and the
    number of items that carry the tag as order; no error is shown, the
    inputs are cleared and a timeout of 2000 ms is scheduled. *)
Theorem handleSaveItem_saves :
  forall (b : App.Browser) (urlArg tagArg : option jsstring) (p : App.Popup)
         (videoUrl videoTag : jsstring) (videoId playlistId : option jsstring),
    videoUrl
    = App.orString (match urlArg with Some u => u | None => [] end)
        (App.newUrl p) ->
    videoTag
    = App.orString (match tagArg with Some t => t | None => [] end)
        (App.newTag p) ->
    videoUrl <> [] ->
    App.getYouTubeID videoUrl = Ok videoId ->
    App.getYouTubePlaylistID videoUrl = Ok playlistId ->
    videoId <> None \/ playlistId <> None ->
    exists r w' p',
      fetchVideoData (App.host b) videoUrl (App.net p) = (Ok r, w') /\
      App.handleSaveItem b urlArg tagArg p = Ok p' /\
      App.items p'
      = {| App.id := App.now b (App.clockReads p);
           App.url := videoUrl;
           App.title := title (data r);
           App.thumbnail := thumbnailUrl (data r);
           App.dateAdded := App.now b (S (App.clockReads p));
           App.watched := false;
           App.type := match playlistId with
                       | Some _ => App.playlist
                       | None => App.video
                       end;
           App.order :=
             Z.of_nat (List.length
                         (filter (App.hasTag videoTag) (App.items p)));
           App.tags := match videoTag with
                       | [] => []
                       | _ :: _ => [videoTag]
                       end |} :: App.items p /\
      App.net p' = w' /\
      App.saveState p' = App.Success /\
      ErrorHandler.hasError (App.errorState p') = false /\
      App.newUrl p' = [] /\ App.newTag p' = [] /\
      App.timeouts p' = App.timeouts p ++ [2000%Z].
Proof. exact handleSaveItem_run. Qed.

Lemma handleSaveItem_saves_witness :
  exists p',
    App.handleSaveItem (browserOf offline)
      (Some (lit "https://youtu.be/dQw4w9WgXcQ")) (Some (lit "music"))
      (popupWith [itemOf 5 [lit "music"]] []) = Ok p' /\
    List.length (App.items p') = 2 /\
    App.saveState p' = App.Success /\
    ErrorHandler.hasError (App.errorState p') = false.
Proof.
  destruct (handleSaveItem_saves (browserOf offline)
              (Some (lit "https://youtu.be/dQw4w9WgXcQ")) (Some (lit "music"))
              (popupWith [itemOf 5 [lit "music"]] [])
              (lit "https://youtu.be/dQw4w9WgXcQ") (lit "music")
              (Some (lit "dQw4w9WgXcQ")) None
              eq_refl eq_refl ltac:(discriminate)
              ltac:(vm_compute; reflexivity) ltac:(vm_compute; reflexivity)
              ltac:(left; discriminate))
    as (r & w' & p' & _ & H & Hi & _ & Hs & He & _).
  exists p'. rewrite Hi. auto.
Defined.

(** X14. A url in which the service finds a video id is always saved with
    the canonical thumbnail of that id, with or without network. *)
Theorem handleSaveItem_thumbnail :
  forall (b : App.Browser) (urlArg tagArg : option jsstring) (p : App.Popup)
         (videoUrl i : jsstring),
    videoUrl
    = App.orString (match urlArg with Some u => u | None => [] end)
        (App.newUrl p) ->
    getYouTubeID videoUrl = Ok (Some i) ->
    exists p' item,
      App.handleSaveItem b urlArg tagArg p = Ok p' /\
      App.items p' = item :: App.items p /\
      App.url item = videoUrl /\
      App.thumbnail item
      = VStr (lit "https://img.youtube.com/vi/" ++ i ++ lit "/mqdefault.jpg").
Proof.
  intros b urlArg tagArg p videoUrl i Hurl Hi.
  destruct (App_getYouTubeID_covers videoUrl i Hi) as (j & Hj).
  destruct (getYouTubePlaylistID_total videoUrl) as (pl & Hpl).
  assert (Hne : videoUrl <> []).
  { intros ->. vm_compute in Hi. discriminate. }
  destruct (handleSaveItem_run b urlArg tagArg p videoUrl _ (Some j) pl
              Hurl eq_refl Hne Hj Hpl ltac:(left; discriminate))
    as (r & w' & p' & E & H & Hitems & _).
  eexists p', _. split; [exact H|]. split; [exact Hitems|].
  split; [reflexivity|]. cbn [App.thumbnail].
  apply (fetchVideoData_thumbnail_of_id (App.host b) videoUrl i (App.net p) w' r
           Hi E).
Qed.

Lemma handleSaveItem_thumbnail_witness :
  exists p' item,
    App.handleSaveItem (browserOf (answeringStatus 500)) None None
      (popupWith [] (lit "https://www.youtube.com/watch?v=dQw4w9WgXcQ"))
    = Ok p' /\
    App.items p' = item :: [] /\
    App.url item = lit "https://www.youtube.com/watch?v=dQw4w9WgXcQ" /\
    App.thumbnail item
    = VStr (lit "https://img.youtube.com/vi/" ++ lit "dQw4w9WgXcQ"
              ++ lit "/mqdefault.jpg").
Proof.
  apply (handleSaveItem_thumbnail (browserOf (answeringStatus 500)) None None
           (popupWith [] (lit "https://www.youtube.com/watch?v=dQw4w9WgXcQ"))
           (lit "https://www.youtube.com/watch?v=dQw4w9WgXcQ")
           (lit "dQw4w9WgXcQ") eq_refl).
  vm_compute. reflexivity.
Defined.

(** ** The list of items *)

Lemma SavedItem_eta (x : App.SavedItem) :
  {| App.id := App.id x; App.url := App.url x; App.title := App.title x;
     App.thumbnail := App.thumbnail x; App.dateAdded := App.dateAdded x;
     App.watched := App.watched x; App.type := App.type x;
     App.order := App.order x; App.tags := App.tags x |} = x.
Proof. destruct x; reflexivity. Qed.

(** X15. Toggling the watched mark of an id twice gives back the list of
    items, and one toggle changes nothing but the mark of the items with
    that id. *)
Theorem handleToggleWatched_involutive :
  forall (i : Z) (p : App.Popup),
    App.items (App.handleToggleWatched i (App.handleToggleWatched i p))
    = App.items p /\
    map (fun x => (App.id x, App.url x, App.title x, App.thumbnail x,
                   App.dateAdded x, App.type x, App.order x, App.tags x))
      (App.items (App.handleToggleWatched i p))
    = map (fun x => (App.id x, App.url x, App.title x, App.thumbnail x,
                     App.dateAdded x, App.type x, App.order x, App.tags x))
        (App.items p) /\
    map App.watched (App.items (App.handleToggleWatched i p))
    = map (fun x => if (App.id x =? i)%Z then negb (App.watched x)
                    else App.watched x) (App.items p).
Proof.
  intros i p.
  assert (Hitems : forall q,
    App.items (App.handleToggleWatched i q)
    = map (fun item =>
             if (App.id item =? i)%Z then
               {| App.id := App.id item; App.url := App.url item;
                  App.title := App.title item;
                  App.thumbnail := App.thumbnail item;
                  App.dateAdded := App.dateAdded item;
                  App.watched := negb (App.watched item);
                  App.type := App.type item; App.order := App.order item;
                  App.tags := App.tags item |}
             else item) (App.items q)).
  { intros q. unfold App.handleToggleWatched.
    destruct (find _ (App.items q)); reflexivity. }
  rewrite !Hitems, !map_map. repeat split.
  - rewrite <- (map_id (App.items p)) at 2. apply map_ext. intros x.
    destruct (App.id x =? i)%Z eqn:E; [|rewrite E; reflexivity].
    cbn. rewrite E. cbn. rewrite negb_involutive. apply SavedItem_eta.
  - apply map_ext. intros x. destruct (App.id x =? i)%Z; reflexivity.
  - apply map_ext. intros x. destruct (App.id x =? i)%Z; reflexivity.
Qed.



(** X17. Deselecting an id removes every copy of it from the selection,
    and selecting an id that was not selected and deselecting it again
    gives back the selection. *)
Theorem handleSelectionChange_round_trip :
  forall (i : Z) (p : App.Popup),
    ~ In i (App.selectedItems (App.handleSelectionChange i false p)) /\
    (~ In i (App.selectedItems p) ->
     App.selectedItems
       (App.handleSelectionChange i false
          (App.handleSelectionChange i true p))
     = App.selectedItems p).
Proof.
  intros i p. unfold App.handleSelectionChange. popup_simpl. split.
  - intros H. apply filter_In in H. destruct H as [_ H].
    rewrite Z.eqb_refl in H. discriminate.
  - intros Hnot. rewrite filter_app. cbn [filter]. rewrite Z.eqb_refl.
    cbn [negb]. rewrite app_nil_r.
    induction (App.selectedItems p) as [|x l IH]; [reflexivity|].
    cbn [filter]. destruct (Z.eqb_spec x i) as [E|E].
    + exfalso. apply Hnot. left. exact E.
    + cbn [negb]. f_equal. apply IH. intros H. apply Hnot. right. exact H.
Qed.

Lemma handleSelectionChange_round_trip_witness :
  App.selectedItems
    (App.handleSelectionChange 7 false
       (App.handleSelectionChange 7 true
          (App.setSelectedItems (fun _ => [5; 9]%Z) (popupWith [] []))))
  = [5; 9]%Z.
Proof.
  apply (proj2 (handleSelectionChange_round_trip 7
                  (App.setSelectedItems (fun _ => [5; 9]%Z)
                     (popupWith [] [])))).
  intros [H|[H|[]]]; discriminate.
Defined.

(** X18. When the view shows items and the selection has another size,
    select-all selects the ids of the items shown, in their order, and a
    second select-all clears the selection. *)
Theorem handleSelectAll_toggles :
  forall p : App.Popup,
    App.filteredItems p <> [] ->
    List.length (App.selectedItems p) <> List.length (App.filteredItems p) ->
    App.selectedItems (App.handleSelectAll p)
    = map App.id (App.filteredItems p) /\
    App.selectedItems (App.handleSelectAll (App.handleSelectAll p)) = [].
Proof.
  intros p Hne Hlen.
  assert (H1 : App.handleSelectAll p
               = App.setSelectedItems
                   (fun _ => map App.id (App.filteredItems p)) p).
  { unfold App.handleSelectAll. apply Nat.eqb_neq in Hlen. rewrite Hlen.
    reflexivity. }
  rewrite H1. split; [reflexivity|].
  unfold App.handleSelectAll.
  assert (Hf : App.filteredItems
                 (App.setSelectedItems
                    (fun _ => map App.id (App.filteredItems p)) p)
               = App.filteredItems p) by reflexivity.
  rewrite Hf. popup_simpl. rewrite length_map, Nat.eqb_refl.
  destruct (App.filteredItems p); [congruence|]. reflexivity.
Qed.

Lemma handleSelectAll_toggles_witness :
  App.selectedItems
    (App.handleSelectAll (popupWith [itemOf 5 []; itemOf 7 []] []))
  = [5; 7]%Z /\
  App.selectedItems
    (App.handleSelectAll
       (App.handleSelectAll (popupWith [itemOf 5 []; itemOf 7 []] [])))
  = [].
Proof.
  apply (handleSelectAll_toggles (popupWith [itemOf 5 []; itemOf 7 []] []));
    discriminate.
Defined.

(** ** Loading and reordering *)

Lemma migrateItems_from k (l : list App.SavedItem) :
  map (fun '(index, item) =>
         {| App.id := App.id (App.stored item);
            App.url := App.url (App.stored item);
            App.title := App.title (App.stored item);
            App.thumbnail := App.thumbnail (App.stored item);
            App.dateAdded := App.dateAdded (App.stored item);
            App.watched := App.watched (App.stored item);
            App.type := App.type (App.stored item);
            App.order := match App.storedOrder item with
                         | Some o => o
                         | None => Z.of_nat index
                         end;
            App.tags := match App.storedTags item with
                        | Some t => t
                        | None => []
                        end |})
      (combine (seq k (List.length (map App.toStored l)))
         (map App.toStored l))
  = l.
Proof.
  revert k. induction l as [|x l IH]; intros k; [reflexivity|].
  cbn [map List.length seq combine]. f_equal.
  - cbn. apply SavedItem_eta.
  - apply IH.
Qed.

Lemma migrateItems_nth (l : list App.StoredItem) :
  forall k start it,
    nth_error l k = Some it ->
    exists m,
      nth_error
        (map (fun '(index, item) =>
           {| App.id := App.id (App.stored item);
              App.url := App.url (App.stored item);
              App.title := App.title (App.stored item);
              App.thumbnail := App.thumbnail (App.stored item);
              App.dateAdded := App.dateAdded (App.stored item);
              App.watched := App.watched (App.stored item);
              App.type := App.type (App.stored item);
              App.order := match App.storedOrder item with
                           | Some o => o
                           | None => Z.of_nat index
                           end;
              App.tags := match App.storedTags item with
                          | Some t => t
                          | None => []
                          end |})
           (combine (seq start (List.length l)) l)) k = Some m /\
      App.id m = App.id (App.stored it) /\
      App.order m = match App.storedOrder it with
                    | Some o => o
                    | None => Z.of_nat (start + k)
                    end /\
      App.tags m = match App.storedTags it with
                   | Some t => t
                   | None => []
                   end.
Proof.
  induction l as [|x l IH]; intros k start it H.
  - destruct k; discriminate.
  - destruct k as [|k]; cbn in H.
    + inversion H; subst x. eexists. split; [reflexivity|].
      cbn. rewrite Nat.add_0_r. auto.
    + destruct (IH k (S start) it H) as (m & Hm & Hid & Ho & Ht).
      exists m. split; [exact Hm|]. rewrite Ho.
      replace (S start + k) with (start + S k) by lia. auto.
Qed.

(** X19. Loading what this version saved gives back the same items; an
    item that an older version stored without an order gets its index in
    the list as order, one without tags the empty list, and values that
    are there are kept. *)
Theorem migrateItems_round_trip :
  (forall l : list App.SavedItem,
     App.migrateItems (map App.toStored l) = l) /\
  (forall (l : list App.StoredItem) (k : nat) (it : App.StoredItem),
     nth_error l k = Some it ->
     exists m,
       nth_error (App.migrateItems l) k = Some m /\
       App.id m = App.id (App.stored it) /\
       App.order m = match App.storedOrder it with
                     | Some o => o
                     | None => Z.of_nat k
                     end /\
       App.tags m = match App.storedTags it with
                    | Some t => t
                    | None => []
                    end).
Proof.
  split.
  - intros l. unfold App.migrateItems. apply migrateItems_from.
  - intros l k it H. unfold App.migrateItems.
    apply (migrateItems_nth l k 0 it H).
Qed.

Lemma migrateItems_round_trip_witness :
  exists m,
    nth_error
      (App.migrateItems
         [App.toStored (itemOf 5 [lit "music"]);
          {| App.stored := itemOf 7 []; App.storedOrder := None;
             App.storedTags := None |}]) 1 = Some m /\
    App.id m = 7%Z /\ App.order m = 1%Z /\ App.tags m = [].
Proof.
  destruct (proj2 migrateItems_round_trip
              [App.toStored (itemOf 5 [lit "music"]);
               {| App.stored := itemOf 7 []; App.storedOrder := None;
                  App.storedTags := None |}] 1
              {| App.stored := itemOf 7 []; App.storedOrder := None;
                 App.storedTags := None |} eq_refl)
    as (m & H & Hid & Ho & Ht).
  exists m. auto.
Defined.

Lemma findIndex_skip {A} (pred : A -> bool) :
  forall pre x rest,
    (forall y, In y pre -> pred y = false) -> pred x = true ->
    App.findIndex pred (pre ++ x :: rest) = Z.of_nat (List.length pre).
Proof.
  induction pre as [|y pre IH]; intros x rest Hpre Hx.
  - cbn. rewrite Hx. reflexivity.
  - cbn [app App.findIndex List.length].
    rewrite (Hpre y (or_introl eq_refl)).
    rewrite IH; [|intros z Hz; apply Hpre; right; exact Hz|exact Hx].
    destruct (Z.of_nat (List.length pre)) eqn:E; lia.
Qed.

(** In a list of distinct ids, each element is found at its own index. *)
Lemma findIndex_own (suf : list App.SavedItem) :
  forall pre,
    NoDup (map App.id (pre ++ suf)) ->
    map (fun x => App.findIndex (fun y => (App.id y =? App.id x)%Z)
                    (pre ++ suf)) suf
    = map Z.of_nat (seq (List.length pre) (List.length suf)).
Proof.
  induction suf as [|x suf IH]; intros pre Hnd; [reflexivity|].
  cbn [map List.length seq]. f_equal.
  - apply findIndex_skip; [|apply Z.eqb_refl].
    intros y Hy. apply Z.eqb_neq. intros E.
    rewrite map_app in Hnd. cbn [map] in Hnd.
    apply NoDup_remove_2 in Hnd. apply Hnd. apply in_or_app. left.
    rewrite <- E. apply in_map. exact Hy.
  - specialize (IH (pre ++ [x])). rewrite <- app_assoc in IH. cbn [app] in IH.
    rewrite length_app in IH. cbn [List.length] in IH.
    rewrite Nat.add_1_r in IH. apply IH. exact Hnd.
Qed.

(** X20. After a drop that is carried out, the items that carry the tag
    of the move are numbered 0, 1, 2, ... in the order of the list, when
    their ids are distinct; all other items, and every field but the
    order, are as [arrayMove] put them. *)
Theorem reorder_numbers :
  forall (arrayMove : list App.SavedItem -> Z -> Z -> list App.SavedItem)
         (selected : jsstring) (activeId overId : Z)
         (l : list App.SavedItem) (draggedItem targetItem : App.SavedItem)
         (tag : option jsstring) (newItems : list App.SavedItem),
    find (fun item => (App.id item =? activeId)%Z) l = Some draggedItem ->
    find (fun item => (App.id item =? overId)%Z) l = Some targetItem ->
    negb (jsstring_eqb selected (lit "all"))
    && negb (App.sameTag (App.firstTag draggedItem)
               (App.firstTag targetItem)) = false ->
    tag = (if jsstring_eqb selected (lit "all")
           then App.firstTag draggedItem else Some selected) ->
    newItems
    = arrayMove l
        (App.findIndex (fun item => (App.id item =? activeId)%Z) l)
        (App.findIndex (fun item => (App.id item =? overId)%Z) l) ->
    NoDup (map App.id (filter (App.hasTagOpt tag) newItems)) ->
    let result := App.reorder arrayMove selected activeId overId l in
    map App.order (filter (App.hasTagOpt tag) result)
    = map Z.of_nat
        (seq 0 (List.length (filter (App.hasTagOpt tag) newItems))) /\
    filter (fun x => negb (App.hasTagOpt tag x)) result
    = filter (fun x => negb (App.hasTagOpt tag x)) newItems /\
    map (fun x => (App.id x, App.url x, App.title x, App.thumbnail x,
                   App.dateAdded x, App.watched x, App.type x, App.tags x))
      result
    = map (fun x => (App.id x, App.url x, App.title x, App.thumbnail x,
                     App.dateAdded x, App.watched x, App.type x, App.tags x))
        newItems.
Proof.
  intros arrayMove selected a o l dragged target tag newItems
    Hd Ht Hgo Htag Hnew Hnd result.
  subst result. unfold App.reorder. rewrite Hd, Ht, Hgo.
  cbv zeta. rewrite <- Htag, <- Hnew.
  set (T := filter (App.hasTagOpt tag) newItems) in *.
  set (f := fun item : App.SavedItem =>
              if App.hasTagOpt tag item then
                {| App.id := App.id item; App.url := App.url item;
                   App.title := App.title item;
                   App.thumbnail := App.thumbnail item;
                   App.dateAdded := App.dateAdded item;
                   App.watched := App.watched item;
                   App.type := App.type item;
                   App.order :=
                     App.findIndex
                       (fun tagItem => (App.id tagItem =? App.id item)%Z) T;
                   App.tags := App.tags item |}
              else item).
  assert (Hkeep : forall x, App.hasTagOpt tag (f x) = App.hasTagOpt tag x).
  { intros x. unfold f. destruct (App.hasTagOpt tag x) eqn:E; [|exact E].
    destruct tag; exact E. }
  assert (Hfilter : forall (q : App.SavedItem -> bool) (m : list App.SavedItem),
             (forall x, q (f x) = q x) ->
             filter q (map f m) = map f (filter q m)).
  { intros q m Hq. induction m as [|x m IH]; [reflexivity|].
    cbn [map filter]. rewrite Hq. destruct (q x); cbn [map]; rewrite IH;
      reflexivity. }
  repeat split.
  - rewrite (Hfilter _ newItems Hkeep). fold T. rewrite map_map.
    pose proof (findIndex_own T [] Hnd) as Hown.
    cbn [app List.length] in Hown. rewrite <- Hown.
    apply map_ext_in. intros x Hx. unfold f.
    unfold T in Hx. apply filter_In in Hx. destruct Hx as [_ Hx].
    rewrite Hx. reflexivity.
  - rewrite (Hfilter _ newItems); [|intros x; rewrite Hkeep; reflexivity].
    rewrite <- (map_id (filter _ newItems)) at 2.
    apply map_ext_in. intros x Hx. apply filter_In in Hx.
    destruct Hx as [_ Hx]. apply negb_true_iff in Hx. unfold f.
    rewrite Hx. reflexivity.
  - rewrite map_map. apply map_ext. intros x. unfold f.
    destruct (App.hasTagOpt tag x); reflexivity.
Qed.

Lemma reorder_numbers_witness :
  map App.order
    (filter (App.hasTagOpt (Some (lit "music")))
       (App.reorder moveItem (lit "music") 7 5
          [itemOf 5 [lit "music"]; itemOf 6 [lit "news"];
           itemOf 7 [lit "music"]]))
  = map Z.of_nat (seq 0 2) /\
  map App.id
    (App.reorder moveItem (lit "music") 7 5
       [itemOf 5 [lit "music"]; itemOf 6 [lit "news"];
        itemOf 7 [lit "music"]])
  = [7; 5; 6]%Z.
Proof.
  destruct (reorder_numbers moveItem (lit "music") 7 5
              [itemOf 5 [lit "music"]; itemOf 6 [lit "news"];
               itemOf 7 [lit "music"]]
              (itemOf 7 [lit "music"]) (itemOf 5 [lit "music"])
              (Some (lit "music"))
              [itemOf 7 [lit "music"]; itemOf 5 [lit "music"];
               itemOf 6 [lit "news"]]
              eq_refl eq_refl eq_refl eq_refl eq_refl
              ltac:(vm_compute; repeat constructor; cbn; intuition discriminate))
    as (H1 & _ & _).
  split; [exact H1|]. vm_compute. reflexivity.
Defined.

(** ** Recovering from failures that pass *)






(** ** The tags in use *)

Lemma jsstring_eqb_eq a : forall b, jsstring_eqb a b = true <-> a = b.
Proof.
  induction a as [|x a IH]; intros [|y b]; cbn; split; intros H;
    try reflexivity; try discriminate.
  - apply andb_true_iff in H. destruct H as [H1 H2].
    apply N.eqb_eq in H1. apply IH in H2. subst. reflexivity.
  - inversion H; subst. rewrite N.eqb_refl. cbn. apply IH. reflexivity.
Qed.

Lemma stringLt_irrefl a : App.stringLt a a = false.
Proof.
  induction a as [|x a IH]; [reflexivity|]. cbn.
  rewrite N.ltb_irrefl, N.eqb_refl, IH. reflexivity.
Qed.

Lemma stringLt_trans a :
  forall b c,
    App.stringLt a b = true -> App.stringLt b c = true ->
    App.stringLt a c = true.
Proof.
  induction a as [|x a IH]; intros [|y b] [|z c] H1 H2; cbn in *;
    try discriminate; try reflexivity.
  apply orb_true_iff in H1. apply orb_true_iff in H2.
  apply orb_true_iff.
  destruct H1 as [H1|H1], H2 as [H2|H2].
  - left. apply N.ltb_lt in H1, H2. apply N.ltb_lt. lia.
  - apply andb_true_iff in H2. destruct H2 as [H2 _].
    apply N.eqb_eq in H2. subst. left. exact H1.
  - apply andb_true_iff in H1. destruct H1 as [H1 _].
    apply N.eqb_eq in H1. subst. left. exact H2.
  - apply andb_true_iff in H1. destruct H1 as [H1 H1'].
    apply andb_true_iff in H2. destruct H2 as [H2 H2'].
    apply N.eqb_eq in H1, H2. subst. right. rewrite N.eqb_refl. cbn.
    apply (IH b c H1' H2').
Qed.

Lemma stringLt_total a :
  forall b, App.stringLt a b = false -> a <> b -> App.stringLt b a = true.
Proof.
  induction a as [|x a IH]; intros [|y b] H Hne; cbn in *;
    try congruence; try reflexivity.
  apply orb_false_iff in H. destruct H as [H1 H2].
  apply N.ltb_ge in H1. apply orb_true_iff.
  destruct (N.eqb_spec x y) as [E|E].
  - subst. cbn in H2. right. rewrite N.eqb_refl. cbn.
    apply IH; [exact H2|congruence].
  - left. apply N.ltb_lt. lia.
Qed.

Lemma insertSorted_In x l :
  forall y, In y (App.insertSorted x l) <-> y = x \/ In y l.
Proof.
  induction l as [|z l IH]; intros y; cbn.
  - intuition.
  - destruct (App.stringLt z x); cbn; [rewrite IH|]; intuition.
Qed.

Lemma insertSorted_sorted x l :
  StronglySorted (fun a b => App.stringLt a b = true) l ->
  ~ In x l ->
  StronglySorted (fun a b => App.stringLt a b = true) (App.insertSorted x l).
Proof.
  induction 1 as [|z l Hs IH Hz]; intros Hnot; cbn.
  - constructor; constructor.
  - destruct (App.stringLt z x) eqn:E.
    + constructor.
      * apply IH. intros H. apply Hnot. right. exact H.
      * apply Forall_forall. intros y Hy. apply insertSorted_In in Hy.
        destruct Hy as [->|Hy]; [exact E|].
        rewrite Forall_forall in Hz. apply Hz. exact Hy.
    + assert (Hxz : App.stringLt x z = true).
      { apply stringLt_total; [exact E|]. intros ->. apply Hnot. left.
        reflexivity. }
      constructor; [constructor; assumption|].
      constructor; [exact Hxz|].
      apply Forall_forall. intros y Hy. rewrite Forall_forall in Hz.
      apply (stringLt_trans x z y Hxz (Hz y Hy)).
Qed.

Lemma unique_In l : forall y, In y (App.unique l) <-> In y l.
Proof.
  induction l as [|x l IH]; intros y; cbn; [reflexivity|].
  rewrite filter_In, IH. split.
  - intros [H|[H _]]; auto.
  - intros [H|H]; [auto|].
    destruct (jsstring_eqb x y) eqn:E.
    + apply jsstring_eqb_eq in E. auto.
    + right. auto.
Qed.

Lemma unique_NoDup l : NoDup (App.unique l).
Proof.
  induction l as [|x l IH]; cbn; constructor.
  - intros H. apply filter_In in H. destruct H as [_ H].
    rewrite (proj2 (jsstring_eqb_eq x x) eq_refl) in H. discriminate.
  - apply NoDup_filter. exact IH.
Qed.

Lemma sort_In l : forall y, In y (App.sort l) <-> In y l.
Proof.
  induction l as [|x l IH]; intros y; cbn; [reflexivity|].
  rewrite insertSorted_In, IH. intuition.
Qed.

Lemma sort_sorted l :
  NoDup l -> StronglySorted (fun a b => App.stringLt a b = true) (App.sort l).
Proof.
  induction 1 as [|x l Hx Hnd IH]; cbn; [constructor|].
  apply insertSorted_sorted; [exact IH|].
  intros H. apply Hx. apply (proj1 (sort_In l x)). exact H.
Qed.

(** X22. [getAllTags] lists exactly the tags that some item carries, each
    once, in strictly increasing order of their code units. *)
Theorem getAllTags_sorted :
  forall p : App.Popup,
    StronglySorted (fun a b => App.stringLt a b = true) (App.getAllTags p) /\
    NoDup (App.getAllTags p) /\
    (forall t,
       In t (App.getAllTags p) <->
       exists item, In item (App.items p) /\ In t (App.tags item)).
Proof.
  intros p. unfold App.getAllTags.
  assert (Hs := sort_sorted _ (unique_NoDup (flat_map App.tags (App.items p)))).
  split; [exact Hs|]. split.
  - revert Hs. generalize (App.sort (App.unique (flat_map App.tags (App.items p)))).
    induction 1 as [|x l Hs IH Hx]; constructor; [|exact IH].
    intros Hin. rewrite Forall_forall in Hx. specialize (Hx x Hin).
    rewrite stringLt_irrefl in Hx. discriminate.
  - intros t. rewrite sort_In, unique_In, in_flat_map. reflexivity.
Qed.
